(** * DriftDB Python client: connection, pool, facade and transaction

    A shallow embedding of [clients/python/driftdb] ([exceptions.py],
    [types.py], [query.py], [client.py]) and the properties of the client
    that its description states.

    Python objects that are shared by reference (connections, transactions,
    the pool) live in a store; coroutines are computations over that store
    that return, raise or never resume.  The remote engine and the asyncio
    transport are an environment that answers every connect, exchange and
    close. *)

From Stdlib Require Import ZArith String Ascii List Lia.
From Stdlib Require Import DecimalString DecimalPos DecimalZ.
From stdpp Require Import base tactics option list gmap strings relations.

#[local] Set Warnings "-clear-no-such-hyp".

Local Open Scope string_scope.
Local Open Scope list_scope.
Local Open Scope Z_scope.

(** ** Python values that cross the wire *)

(** A decoded JSON document.  A Python [str] is a [string], one [ascii] per
    character; a float is carried as its binary64 bit pattern, the client
    never computes with one. *)
#[warnings="-register-all"]
Inductive json : Type :=
  | JNull
  | JBool (b : bool)
  | JInt (z : Z)
  | JFloat (bits : Z)
  | JStr (s : string)
  | JArr (items : list json)
  | JObj (fields : list (string * json)).

(** [str(n)] for an [int]. *)
Definition py_str_int (z : Z) : string := NilZero.string_of_int (Z.to_int z).

(** [type(v).__name__] of a decoded value. *)
Definition py_type_name (v : json) : string :=
  match v with
  | JNull => "NoneType"
  | JBool _ => "bool"
  | JInt _ => "int"
  | JFloat _ => "float"
  | JStr _ => "str"
  | JArr _ => "list"
  | JObj _ => "dict"
  end.

(** [d[key]] on the fields of a dict, first binding wins (the decoder
    leaves one binding per key). *)
Fixpoint assoc_get (key : string) (fields : list (string * json)) : option json :=
  match fields with
  | [] => None
  | (k, v) :: rest => if String.eqb k key then Some v else assoc_get key rest
  end.

(** [d.get(key, default)]. *)
Definition dict_get (fields : list (string * json)) (key : string) (dflt : json) : json :=
  match assoc_get key fields with
  | Some v => v
  | None => dflt
  end.

(** [v == "error"] and the like: a decoded value equals a [str] literal
    only when it is that string. *)
Definition py_eq_str (v : json) (s : string) : bool :=
  match v with
  | JStr s' => String.eqb s' s
  | _ => false
  end.

(** The characters of a [str], each as a one-character [str]. *)
Fixpoint str_chars (s : string) : list json :=
  match s with
  | EmptyString => []
  | String a rest => JStr (String a EmptyString) :: str_chars rest
  end.

(** [iter(v)]: what a [for] loop over a decoded value visits, [None] where
    Python raises [TypeError]. *)
Definition py_iter (v : json) : option (list json) :=
  match v with
  | JArr items => Some items
  | JObj fields => Some (map (fun kv => JStr (fst kv)) fields)
  | JStr s => Some (str_chars s)
  | _ => None
  end.

(** ** exceptions.py *)

(** An exception is its class and [str(e)].  [JSONDecodeError] and [PyError]
    stand for [json.JSONDecodeError] and for every other built-in
    [Exception] (OSError, AttributeError, TypeError, UnicodeDecodeError). *)
Inductive exn : Type :=
  | ConnectionError (msg : string)
  | QueryError (msg : string)
  | TimeoutError (msg : string)
  | AuthenticationError (msg : string)
  | TransactionError (msg : string)
  | JSONDecodeError (msg : string)
  | PyError (msg : string).

Definition exn_str (e : exn) : string :=
  match e with
  | ConnectionError m | QueryError m | TimeoutError m | AuthenticationError m
  | TransactionError m | JSONDecodeError m | PyError m => m
  end.

Definition is_QueryError (e : exn) : bool :=
  match e with QueryError _ => true | _ => false end.

(** ** types.py, query.py *)

Record Row : Type := mkRow { _data : json }.

Record QueryResult : Type := mkQueryResult {
  rows : list Row;
  row_count : Z;
  columns : json;
  execution_time_ms : json
}.

(** [QueryResult.__len__]. *)
Definition qr_len (r : QueryResult) : Z := row_count r.

(** [QueryResult.__getitem__]: [self.rows[index]], with Python's negative
    indices and [IndexError]. *)
Definition qr_getitem (r : QueryResult) (index : Z) : exn + Row :=
  let n := Z.of_nat (length (rows r)) in
  let i := if index <? 0 then index + n else index in
  if (0 <=? i) && (i <? n) then
    match rows r !! Z.to_nat i with
    | Some row => inr row
    | None => inl (PyError "list index out of range")
    end
  else inl (PyError "list index out of range").

(** [QueryResult.first]. *)
Definition qr_first (r : QueryResult) : option Row := head (rows r).

(** ** The store *)

(** [Connection]: [_streams] says that [_reader] and [_writer] are set. *)
Record Connection : Type := mkConnection {
  host : string;
  port : Z;
  _streams : bool;
  _connected : bool
}.

(** The link state of the description, read off the two flags. *)
Inductive LinkState : Type := Unconnected | Connected | Closed.

Definition link_state (c : Connection) : LinkState :=
  if _connected c && _streams c then Connected
  else if _streams c then Closed else Unconnected.

(** [ConnectionPool]: [_available] is the FIFO queue of idle connections,
    [_lock] is held or free; [timeout] is kept as the text Python prints
    for it. *)
Record ConnectionPool : Type := mkPool {
  pool_host : string;
  pool_port : Z;
  min_size : Z;
  max_size : Z;
  timeout : string;
  _available : list nat;
  _size : Z;
  _lock : bool
}.

Record Transaction : Type := mkTransaction { _conn : option nat }.

(** What the client did, in order. *)
Inductive Event : Type :=
  | EvCreate (c : nat)
  | EvSend (c : nat) (query : string) (params : list json)
  | EvClose (c : nat)
  | EvAcquire (c : nat)
  | EvRelease (c : nat).

Record World : Type := mkWorld {
  heap : gmap nat Connection;
  next_conn : nat;
  pool : ConnectionPool;
  txs : gmap nat Transaction;
  next_tx : nat;
  trace : list Event
}.

Definition set_heap (h : gmap nat Connection) (w : World) : World :=
  mkWorld h (next_conn w) (pool w) (txs w) (next_tx w) (trace w).
Definition set_pool (p : ConnectionPool) (w : World) : World :=
  mkWorld (heap w) (next_conn w) p (txs w) (next_tx w) (trace w).
Definition set_txs (t : gmap nat Transaction) (w : World) : World :=
  mkWorld (heap w) (next_conn w) (pool w) t (next_tx w) (trace w).
Definition log (e : Event) (w : World) : World :=
  mkWorld (heap w) (next_conn w) (pool w) (txs w) (next_tx w) (trace w ++ [e]).

Definition set_available (q : list nat) (p : ConnectionPool) : ConnectionPool :=
  mkPool (pool_host p) (pool_port p) (min_size p) (max_size p) (timeout p)
         q (_size p) (_lock p).
Definition set_size (n : Z) (p : ConnectionPool) : ConnectionPool :=
  mkPool (pool_host p) (pool_port p) (min_size p) (max_size p) (timeout p)
         (_available p) n (_lock p).
Definition set_lock (b : bool) (p : ConnectionPool) : ConnectionPool :=
  mkPool (pool_host p) (pool_port p) (min_size p) (max_size p) (timeout p)
         (_available p) (_size p) b.

(** The clock of the environment: one tick per event. *)
Definition now (w : World) : nat := length (trace w).

(** ** The environment *)

Inductive ConnectOutcome : Type :=
  | ConnectOk
  | ConnectTimeout
  | ConnectFault (msg : string).

(** One request/response exchange after the request was handed to the
    writer: [Fault] is any exception of drain, readline or decode other than
    a JSON decoding error, [BadJson] is [json.JSONDecodeError], [Hang] is a
    reply that never comes. *)
Inductive Exchange : Type :=
  | Reply (response : json)
  | BadJson (msg : string)
  | Fault (msg : string)
  | Hang.

Record Env : Type := mkEnv {
  connect_outcome : nat -> ConnectOutcome;
  exchange : nat -> Exchange;
  wait_closed : nat -> option string;
  py_repr : json -> string
}.

(** ** Coroutines *)

Inductive Outcome (A : Type) : Type :=
  | Ret (a : A)
  | Raise (e : exn)
  | Blocked.
Arguments Ret {A} a.
Arguments Raise {A} e.
Arguments Blocked {A}.

Definition M (A : Type) : Type := World -> Outcome A * World.

Definition ret {A} (a : A) : M A := fun w => (Ret a, w).
Definition raise {A} (e : exn) : M A := fun w => (Raise e, w).
Definition block {A} : M A := fun w => (Blocked, w).
Definition bind {A B} (m : M A) (k : A -> M B) : M B := fun w =>
  match m w with
  | (Ret a, w1) => k a w1
  | (Raise e, w1) => (Raise e, w1)
  | (Blocked, w1) => (Blocked, w1)
  end.
Definition get_world : M World := fun w => (Ret w, w).
Definition modify (f : World -> World) : M unit := fun w => (Ret tt, f w).

Declare Scope py_scope.
Delimit Scope py_scope with py.
Notation "x <- m ;; k" := (bind m (fun x => k))
  (at level 100, m at next level, right associativity) : py_scope.
Notation "m ;; k" := (bind m (fun _ => k))
  (at level 100, right associativity) : py_scope.
Local Open Scope py_scope.

(** [try: m except Exception as e: h e]. *)
Definition try_except {A} (m : M A) (h : exn -> M A) : M A := fun w =>
  match m w with
  | (Raise e, w1) => h e w1
  | r => r
  end.

(** [try: m finally: fin]: [fin] runs on return and on raise; what it raises
    replaces the pending outcome. *)
Definition try_finally {A} (m : M A) (fin : M unit) : M A := fun w =>
  match m w with
  | (Blocked, w1) => (Blocked, w1)
  | (r, w1) =>
      match fin w1 with
      | (Ret _, w2) => (r, w2)
      | (Raise e, w2) => (Raise e, w2)
      | (Blocked, w2) => (Blocked, w2)
      end
  end.

(** ** client.py: Connection *)

Section Client.

Variable env : Env.

(** [str(v)] of a decoded value; lists, dicts and floats print through
    [repr]. *)
Definition py_str (v : json) : string :=
  match v with
  | JStr s => s
  | JInt z => py_str_int z
  | JBool true => "True"
  | JBool false => "False"
  | JNull => "None"
  | _ => py_repr env v
  end.

(** [params or []]. *)
Definition params_or_empty (params : option (list json)) : list json :=
  match params with
  | Some l => l
  | None => []
  end.

(** The object behind a reference. *)
Definition deref (c : nat) : M Connection := fun w =>
  match heap w !! c with
  | Some conn => (Ret conn, w)
  | None => (Raise (PyError "dangling reference"), w)
  end.

Definition store (c : nat) (conn : Connection) : M unit :=
  modify (fun w => set_heap (<[c := conn]> (heap w)) w).

(** [Connection(host, port)]. *)
Definition Connection_init (h : string) (p : Z) : M nat := fun w =>
  let c := next_conn w in
  (Ret c,
   log (EvCreate c)
     (mkWorld (<[c := mkConnection h p false false]> (heap w)) (S c)
              (pool w) (txs w) (next_tx w) (trace w))).

(** [Connection.connect]. *)
Definition Connection_connect (c : nat) (tmo : string) : M unit :=
  conn <- deref c ;;
  w <- get_world ;;
  match connect_outcome env (now w) with
  | ConnectOk =>
      store c (mkConnection (host conn) (port conn) true true)
  | ConnectTimeout =>
      raise (TimeoutError ("Connection timeout after " +:+ tmo +:+ "s"))
  | ConnectFault e =>
      raise (ConnectionError
               ("Failed to connect to " +:+ host conn +:+ ":" +:+
                py_str_int (port conn) +:+ ": " +:+ e))
  end.

(** The write, drain, readline, decode and [json.loads] of
    [Connection.execute]: the request is logged when it is handed to the
    writer, the environment answers the exchange. *)
Definition round_trip (c : nat) (conn : Connection) (query : string)
    (params : list json) : M json :=
  if _streams conn then
    w <- get_world ;;
    modify (log (EvSend c query params)) ;;
    match exchange env (now w) with
    | Reply response => ret response
    | BadJson e => raise (JSONDecodeError e)
    | Fault e => raise (PyError e)
    | Hang => block
    end
  else raise (PyError "'NoneType' object has no attribute 'write'").

(** [response.get(key, default)] on whatever was decoded. *)
Definition response_get (response : json) (key : string) (dflt : json) : M json :=
  match response with
  | JObj fields => ret (dict_get fields key dflt)
  | v => raise (PyError ("'" +:+ py_type_name v +:+
                         "' object has no attribute 'get'"))
  end.

(** The body of the [try] of [Connection.execute]. *)
Definition execute_body (c : nat) (conn : Connection) (query : string)
    (params : option (list json)) : M QueryResult :=
  response <- round_trip c conn query (params_or_empty params) ;;
  ty <- response_get response "type" JNull ;;
  if py_eq_str ty "error" then
    msg <- response_get response "message" (JStr "Unknown error") ;;
    raise (QueryError (py_str msg))
  else
    rows_v <- response_get response "rows" (JArr []) ;;
    match py_iter rows_v with
    | None => raise (PyError ("'" +:+ py_type_name rows_v +:+
                              "' object is not iterable"))
    | Some items =>
        let rows := map mkRow items in
        cols <- response_get response "columns" (JArr []) ;;
        ms <- response_get response "execution_time_ms" JNull ;;
        ret (mkQueryResult rows (Z.of_nat (length rows)) cols ms)
    end.

(** The two [except] clauses of [Connection.execute]. *)
Definition execute_handler {A} (e : exn) : M A :=
  match e with
  | JSONDecodeError m => raise (QueryError ("Invalid response from server: " +:+ m))
  | _ => raise (QueryError ("Query execution failed: " +:+ exn_str e))
  end.

(** [Connection.execute]. *)
Definition Connection_execute (c : nat) (query : string)
    (params : option (list json)) : M QueryResult :=
  conn <- deref c ;;
  if negb (_connected conn) then raise (ConnectionError "Not connected to server")
  else try_except (execute_body c conn query params) execute_handler.

(** [Connection.close]: [wait_closed] may raise what the transport kept. *)
Definition Connection_close (c : nat) : M unit :=
  conn <- deref c ;;
  (if _streams conn then
     w <- get_world ;;
     modify (log (EvClose c)) ;;
     match wait_closed env (now w) with
     | None => ret tt
     | Some e => raise (PyError e)
     end
   else ret tt) ;;
  conn <- deref c ;;
  store c (mkConnection (host conn) (port conn) (_streams conn) false).

(** ** client.py: ConnectionPool *)

(** [ConnectionPool(host, port, min_size, max_size, timeout)]. *)
Definition ConnectionPool_init (h : string) (p : Z) (mn mx : Z) (tmo : string)
    : ConnectionPool :=
  mkPool h p mn mx tmo [] 0 false.

(** [self._available.put(conn)]: the queue is unbounded, a put never waits. *)
Definition queue_put (c : nat) (p : ConnectionPool) : ConnectionPool :=
  set_available (_available p ++ [c]) p.

(** [self._available.get()] when an item is there. *)
Definition queue_get (p : ConnectionPool) : option (nat * ConnectionPool) :=
  match _available p with
  | c :: q => Some (c, set_available q p)
  | [] => None
  end.

(** [self._size += 1]. *)
Definition size_incr (p : ConnectionPool) : ConnectionPool :=
  set_size (_size p + 1) p.

(** [ConnectionPool._create_connection]. *)
Definition _create_connection : M nat :=
  w <- get_world ;;
  conn <- Connection_init (pool_host (pool w)) (pool_port (pool w)) ;;
  Connection_connect conn (timeout (pool w)) ;;
  modify (fun w => set_pool (size_incr (pool w)) w) ;;
  ret conn.

(** [ConnectionPool.release]. *)
Definition ConnectionPool_release (c : nat) : M unit :=
  modify (fun w => log (EvRelease c) (set_pool (queue_put c (pool w)) w)).

(** [ConnectionPool.initialize]: the loop over [range(self.min_size)], which
    is empty for a negative [min_size]. *)
Fixpoint initialize_loop (n : nat) : M unit :=
  match n with
  | O => ret tt
  | S k =>
      conn <- _create_connection ;;
      modify (fun w => set_pool (queue_put conn (pool w)) w) ;;
      initialize_loop k
  end.

Definition ConnectionPool_initialize : M unit :=
  w <- get_world ;;
  initialize_loop (Z.to_nat (min_size (pool w))).

(** [async with self._lock: m], run by the only task there is: a lock that
    is held stays held. *)
Definition with_lock {A} (m : M A) : M A :=
  w <- get_world ;;
  if _lock (pool w) then block
  else
    modify (fun w => set_pool (set_lock true (pool w)) w) ;;
    try_finally m (modify (fun w => set_pool (set_lock false (pool w)) w)).

(** [self._available.get()], with [on_empty] for what happens when the queue
    has nothing. *)
Definition available_get (on_empty : M nat) : M nat :=
  w <- get_world ;;
  match queue_get (pool w) with
  | Some (c, p) => modify (set_pool p) ;; ret c
  | None => on_empty
  end.

(** [ConnectionPool.acquire] run by the only task there is: the bounded wait
    on an empty queue times out, the unbounded wait on it never resumes. *)
Definition ConnectionPool_acquire : M nat :=
  c <- available_get
         (created <- with_lock
                       (w <- get_world ;;
                        if _size (pool w) <? max_size (pool w)
                        then c <- _create_connection ;; ret (Some c)
                        else ret None) ;;
          match created with
          | Some c => ret c
          | None => available_get block
          end) ;;
  modify (log (EvAcquire c)) ;;
  ret c.

(** [ConnectionPool.close]: one turn of the [while] per idle connection,
    whatever the turn raises is dropped. *)
Fixpoint close_loop (n : nat) : M unit :=
  match n with
  | O => ret tt
  | S k =>
      w <- get_world ;;
      match _available (pool w) with
      | [] => ret tt
      | _ :: _ =>
          try_except (c <- available_get block ;; Connection_close c)
                     (fun _ => ret tt) ;;
          close_loop k
      end
  end.

Definition ConnectionPool_close : M unit :=
  w <- get_world ;;
  close_loop (length (_available (pool w))).

(** ** client.py: Client *)

(** [Client.query]; [timeout] is accepted and not used. *)
Definition Client_query (sql : string) (params : option (list json))
    (timeout : option string) : M QueryResult :=
  conn <- ConnectionPool_acquire ;;
  try_finally (Connection_execute conn sql params)
              (ConnectionPool_release conn).

(** [Client.query_at_seq]. *)
Definition Client_query_at_seq (sql : string) (sequence : Z)
    (params : option (list json)) : M QueryResult :=
  let time_travel_sql :=
    sql +:+ " FOR SYSTEM_TIME AS OF @SEQ:" +:+ py_str_int sequence in
  Client_query time_travel_sql params None.

(** The [timestamp] argument of [Client.query_at_time]: a [str], or a
    [datetime] given by what its [isoformat()] returns. *)
Inductive Timestamp : Type :=
  | TsStr (s : string)
  | TsDatetime (isoformat : string).

(** [Client.query_at_time]. *)
Definition Client_query_at_time (sql : string) (timestamp : Timestamp)
    (params : option (list json)) : M QueryResult :=
  let timestamp :=
    match timestamp with
    | TsDatetime iso => iso
    | TsStr s => s
    end in
  let time_travel_sql :=
    sql +:+ " FOR SYSTEM_TIME AS OF '" +:+ timestamp +:+ "'" in
  Client_query time_travel_sql params None.

(** [Client.execute]. *)
Definition Client_execute (sql : string) (params : option (list json)) : M Z :=
  result <- Client_query sql params None ;;
  ret (row_count result).

(** [Client.transaction]. *)
Definition Client_transaction : M nat := fun w =>
  let t := next_tx w in
  (Ret t, mkWorld (heap w) (next_conn w) (pool w)
                  (<[t := mkTransaction None]> (txs w)) (S t) (trace w)).


(** ** client.py: Transaction *)

(** [self._conn] of transaction [t]. *)
Definition tx_conn (t : nat) : M (option nat) := fun w =>
  match txs w !! t with
  | Some tx => (Ret (_conn tx), w)
  | None => (Raise (PyError "dangling reference"), w)
  end.

(** [Transaction.__aenter__]. *)
Definition Transaction_aenter (t : nat) : M unit :=
  c <- ConnectionPool_acquire ;;
  modify (fun w => set_txs (<[t := mkTransaction (Some c)]> (txs w)) w) ;;
  Connection_execute c "BEGIN TRANSACTION" None ;;
  ret tt.

(** [self._conn.execute(sql, params)], [self._conn] being a connection or
    [None]. *)
Definition conn_execute_opt (c : option nat) (sql : string)
    (params : option (list json)) : M QueryResult :=
  match c with
  | Some c => Connection_execute c sql params
  | None => raise (PyError "'NoneType' object has no attribute 'execute'")
  end.

(** [Transaction.__aexit__]; [exc_type] is the exception the scope raised,
    if any. *)
Definition Transaction_aexit (t : nat) (exc_type : option exn) : M unit :=
  try_finally
    (c <- tx_conn t ;;
     match exc_type with
     | None => conn_execute_opt c "COMMIT" None ;; ret tt
     | Some _ => conn_execute_opt c "ROLLBACK" None ;; ret tt
     end)
    (c <- tx_conn t ;;
     match c with
     | Some c => ConnectionPool_release c
     | None => ret tt
     end).

(** [Transaction.execute]. *)
Definition Transaction_execute (t : nat) (sql : string)
    (params : option (list json)) : M QueryResult :=
  c <- tx_conn t ;;
  match c with
  | None => raise (QueryError "Transaction not started")
  | Some c => Connection_execute c sql params
  end.

(** [Transaction.commit]. *)
Definition Transaction_commit (t : nat) : M unit :=
  c <- tx_conn t ;;
  match c with
  | None => raise (QueryError "Transaction not started")
  | Some c => Connection_execute c "COMMIT" None ;; ret tt
  end.

(** [Transaction.rollback]. *)
Definition Transaction_rollback (t : nat) : M unit :=
  c <- tx_conn t ;;
  match c with
  | None => raise (QueryError "Transaction not started")
  | Some c => Connection_execute c "ROLLBACK" None ;; ret tt
  end.

(** [async with client.transaction() as tx: body(tx)]: the scope is entered,
    the body runs, and the exit sees what the body raised; [__aexit__]
    returns [None], so the body's exception goes on. *)
Definition async_with_transaction {A} (body : nat -> M A) : M A :=
  t <- Client_transaction ;;
  Transaction_aenter t ;;
  fun w =>
    match body t w with
    | (Ret a, w1) => (Transaction_aexit t None ;; ret a) w1
    | (Raise e, w1) => (Transaction_aexit t (Some e) ;; raise e) w1
    | (Blocked, w1) => (Blocked, w1)
    end.

End Client.

(** The statement that [Transaction.__aexit__] issues: [COMMIT] when the
    scope raised nothing, [ROLLBACK] otherwise. *)
Definition exit_statement (exc_type : option exn) : string :=
  match exc_type with
  | None => "COMMIT"
  | Some _ => "ROLLBACK"
  end.

(** ** Worlds and environments to run the client on *)

Definition World_init (p : ConnectionPool) : World := mkWorld ∅ 0 p ∅ 0 [].

(** A reply with two rows. *)
Definition two_rows : json :=
  JObj [("type", JStr "result");
        ("rows", JArr [JObj [("id", JInt 1)]; JObj [("id", JInt 2)]]);
        ("columns", JArr [JStr "id"])].

(** A reply tagged as an error. *)
Definition error_reply : json :=
  JObj [("type", JStr "error"); ("message", JStr "syntax error")].

(** Every connect succeeds, every exchange is answered by [reply], every
    close goes through. *)
Definition env_reply (reply : json) : Env :=
  mkEnv (fun _ => ConnectOk) (fun _ => Reply reply) (fun _ => None)
        (fun _ => "<repr>").

(** As [env_reply two_rows], but the transport reports a lost link when it
    is closed. *)
Definition env_reset : Env :=
  mkEnv (fun _ => ConnectOk) (fun _ => Reply two_rows)
        (fun _ => Some "Connection reset by peer") (fun _ => "<repr>").

(** A pool of [mn] to [mx] connections to localhost:5432, initialized. *)
Definition started (e : Env) (mn mx : Z) : Outcome unit * World :=
  ConnectionPool_initialize e
    (World_init (ConnectionPool_init "localhost" 5432 mn mx "10.0")).

(** The connections handed out and handed back, in order. *)
Definition acquired (tr : list Event) : list nat :=
  omap (fun e => match e with EvAcquire c => Some c | _ => None end) tr.
Definition released (tr : list Event) : list nat :=
  omap (fun e => match e with EvRelease c => Some c | _ => None end) tr.
(** The request texts written to connection [c], in order. *)
Definition sent_on (c : nat) (tr : list Event) : list string :=
  omap (fun e => match e with
                 | EvSend c' q _ => if Nat.eqb c' c then Some q else None
                 | _ => None
                 end) tr.

(** The world after [ConnectionPool.release]. *)
Definition after_release (c : nat) (w : World) : World :=
  log (EvRelease c) (set_pool (queue_put c (pool w)) w).

(** ** ConnectionPool.acquire and release under concurrent callers *)

(** Callers are asyncio tasks on one event loop: a task runs alone from one
    [await] to the next.  A task that called [acquire] is at one of these
    points of [ConnectionPool.acquire], then holds a connection until it
    calls [release]. *)
Inductive AcquirePc : Type :=
  | Polling              (* in [wait_for(self._available.get(), timeout=1.0)] *)
  | LockWait             (* timed out, at [async with self._lock] *)
  | Locked               (* holds the lock, at [if self._size < self.max_size] *)
  | Connecting           (* holds the lock, in [conn.connect] of [_create_connection] *)
  | Waiting              (* left the lock, in the unbounded [self._available.get()] *)
  | Holding (c : nat)    (* [acquire] returned [c] *)
  | Failed (e : exn)     (* [acquire] raised *)
  | Finished.            (* [release(c)] was called *)

(** What the event loop lets happen to a suspended task: it resumes, its
    bounded wait times out, or its connect fails. *)
Inductive Resume : Type :=
  | Proceed
  | TimedOut
  | ConnectFailed (e : exn).

(** One run of a task from a suspension point to the next, on the shared
    pool; [fresh] names the connection object it may create.  [None]: the
    task cannot resume that way (queue empty, lock held).  The time-out of
    the bounded wait is allowed whatever the queue holds. *)
Definition task_step (r : Resume) (pc : AcquirePc) (p : ConnectionPool)
    (fresh : nat) : option (AcquirePc * ConnectionPool) :=
  match pc, r with
  | Polling, Proceed =>
      match queue_get p with
      | Some (c, p') => Some (Holding c, p')
      | None => None
      end
  | Polling, TimedOut => Some (LockWait, p)
  | LockWait, Proceed =>
      if _lock p then None else Some (Locked, set_lock true p)
  | Locked, Proceed =>
      if _size p <? max_size p then Some (Connecting, p)
      else Some (Waiting, set_lock false p)
  | Connecting, Proceed =>
      Some (Holding fresh, set_lock false (size_incr p))
  | Connecting, ConnectFailed e => Some (Failed e, set_lock false p)
  | Waiting, Proceed =>
      match queue_get p with
      | Some (c, p') => Some (Holding c, p')
      | None => None
      end
  | Holding c, Proceed => Some (Finished, queue_put c p)
  | _, _ => None
  end.

(** A task run through several resumptions. *)
Fixpoint task_run (rs : list Resume) (pc : AcquirePc) (p : ConnectionPool)
    (fresh : nat) : option (AcquirePc * ConnectionPool) :=
  match rs with
  | [] => Some (pc, p)
  | r :: rest =>
      match task_step r pc p fresh with
      | Some (pc', p') => task_run rest pc' p' fresh
      | None => None
      end
  end.

(** The pool, its callers, and a name that no connection object has
    yet. *)
Record Sys : Type := mkSys {
  sys_pool : ConnectionPool;
  sys_tasks : list AcquirePc;
  sys_next : nat
}.

(** A new caller enters [acquire], caller [i] runs to its next suspension
    point, or somebody calls [release(c)] with a connection that they do
    not hold: one they released before, or one that the pool never made
    ([release] takes whatever it is given). *)
Inductive Action : Type :=
  | Spawn
  | Run (i : nat) (r : Resume)
  | Stray (c : nat).

(** The releases of an interleaving are those of holders. *)
Definition paired (a : Action) : bool :=
  match a with
  | Stray _ => false
  | _ => true
  end.

Definition sys_step (a : Action) (s : Sys) : option Sys :=
  match a with
  | Spawn => Some (mkSys (sys_pool s) (sys_tasks s ++ [Polling]) (sys_next s))
  | Stray c => Some (mkSys (queue_put c (sys_pool s)) (sys_tasks s) (sys_next s))
  | Run i r =>
      match sys_tasks s !! i with
      | None => None
      | Some pc =>
          match task_step r pc (sys_pool s) (sys_next s) with
          | None => None
          | Some (pc', p') =>
              Some (mkSys p' (<[i := pc']> (sys_tasks s)) (S (sys_next s)))
          end
      end
  end.

(** An interleaving is a list of actions; it runs as far as each action is
    enabled. *)
Fixpoint sys_run (acts : list Action) (s : Sys) : option Sys :=
  match acts with
  | [] => Some s
  | a :: rest =>
      match sys_step a s with
      | Some s' => sys_run rest s'
      | None => None
      end
  end.

(** The callers start against the pool that [initialize] left. *)
Definition Sys_init (w : World) : Sys := mkSys (pool w) [] (next_conn w).

Definition holding (pc : AcquirePc) : nat :=
  match pc with Holding _ => 1 | _ => 0 end.
Definition in_lock (pc : AcquirePc) : nat :=
  match pc with Locked | Connecting => 1 | _ => 0 end.

(** Connections checked out plus connections idle. *)
Definition live_count (s : Sys) : Z :=
  Z.of_nat (sum_list_with holding (sys_tasks s)
            + length (_available (sys_pool s))).

(** What the lock keeps true of the pool and its callers, whatever is
    released: the count of created connections is within bounds, the lock
    is held by exactly the caller between the test and the end of
    [_create_connection], and that caller has seen room for one more. *)
Definition lock_inv (s : Sys) : Prop :=
  _size (sys_pool s) <= max_size (sys_pool s)
  /\ sum_list_with in_lock (sys_tasks s) = (if _lock (sys_pool s) then 1 else 0)%nat
  /\ (forall i, sys_tasks s !! i = Some Connecting ->
                _size (sys_pool s) < max_size (sys_pool s)).

(** [_size] counts the live connections. *)
Definition counted (s : Sys) : Prop := _size (sys_pool s) = live_count s.

(** ** Runs used below *)

(** The environment that answers everything with [two_rows], and the one
    whose server rejects every request. *)
Definition env_rows : Env := env_reply two_rows.
Definition env_rejecting : Env := env_reply error_reply.

(** [two_rows] as [Connection.execute] returns it. *)
Definition two_rows_result : QueryResult :=
  mkQueryResult [mkRow (JObj [("id", JInt 1)]); mkRow (JObj [("id", JInt 2)])]
                2 (JArr [JStr "id"]) JNull.

(** An initialized pool of exactly one connection, connection 0 idle. *)
Definition w_one : World := snd (started env_rows 1 1).
Definition w_one_rejecting : World := snd (started env_rejecting 1 1).
Definition w_one_reset : World := snd (started env_reset 1 1).

(** A pool of one to two connections, initialized. *)
Definition w_one_two : World := snd (started env_rows 1 2).

(** A pool configured with [min_size = -2], [max_size = -1]. *)
Definition w_negative : World :=
  World_init (ConnectionPool_init "localhost" 5432 (-2) (-1) "10.0").

(** Two callers race for the connections of [w_one_two]: the first takes
    the idle one, the second times out, takes the lock, sees room and
    connects. *)
Definition race : list Action :=
  [Spawn; Spawn; Run 0 Proceed; Run 1 TimedOut; Run 1 Proceed; Run 1 Proceed;
   Run 1 Proceed].

(** [w_one] with transaction 0 made, and with transaction 0 entered. *)
Definition w_made : World := snd (Client_transaction w_one).
Definition w_active : World := snd (Transaction_aenter env_rows 0%nat w_made).

(** The usage that the docstring of [Client] shows:
    [async with client.transaction() as tx:] two inserts, then
    [await tx.commit()]. *)
Definition documented_usage (e : Env) : M unit :=
  async_with_transaction e (fun tx =>
    Transaction_execute e tx "INSERT INTO users VALUES (?, ?)"
      (Some [JInt 1; JStr "Alice"]) ;;
    Transaction_execute e tx "INSERT INTO users VALUES (?, ?)"
      (Some [JInt 2; JStr "Bob"]) ;;
    Transaction_commit e tx).

(** [w_one] after a scope that committed and was left. *)
Definition w_committed : World := snd (documented_usage env_rows w_one).

(** ** types.py: Row *)

(** The built-in exceptions that the methods of [Row] and [QueryResult]
    let through, by class. *)
Inductive PyExc : Type :=
  | KeyError (key : string)
  | TypeError
  | AttributeError.

(** [needle in hay] for two [str]: [needle] occurs in [hay]. *)
Fixpoint str_contains (needle hay : string) : bool :=
  String.prefix needle hay
  || match hay with
     | EmptyString => false
     | String _ rest => str_contains needle rest
     end.

(** [Row.__getitem__]: [self._data[key]] with a [str] key; only a dict can
    be indexed by one. *)
Definition Row_getitem (r : Row) (key : string) : PyExc + json :=
  match _data r with
  | JObj fields =>
      match assoc_get key fields with
      | Some v => inr v
      | None => inl (KeyError key)
      end
  | _ => inl TypeError
  end.

(** [Row.__contains__]: [key in self._data]; a dict looks at its keys, a
    list at its items, a [str] at its substrings, nothing else is a
    container. *)
Definition Row_contains (r : Row) (key : string) : PyExc + bool :=
  match _data r with
  | JObj fields => inr (existsb (fun kv => String.eqb (fst kv) key) fields)
  | JArr items => inr (existsb (fun v => py_eq_str v key) items)
  | JStr s => inr (str_contains key s)
  | _ => inl TypeError
  end.

(** [Row.get]: [self._data.get(key, default)]; only a dict has [get]. *)
Definition Row_get (r : Row) (key : string) (dflt : json) : PyExc + json :=
  match _data r with
  | JObj fields => inr (dict_get fields key dflt)
  | _ => inl AttributeError
  end.

(** [Row.keys], [Row.values], [Row.items]. *)
Definition Row_keys (r : Row) : PyExc + list string :=
  match _data r with
  | JObj fields => inr (map fst fields)
  | _ => inl AttributeError
  end.

Definition Row_values (r : Row) : PyExc + list json :=
  match _data r with
  | JObj fields => inr (map snd fields)
  | _ => inl AttributeError
  end.

Definition Row_items (r : Row) : PyExc + list (string * json) :=
  match _data r with
  | JObj fields => inr fields
  | _ => inl AttributeError
  end.

(** [Row.to_dict]: [self._data.copy()]; dicts and lists have [copy], and a
    copy has the value of the original. *)
Definition Row_to_dict (r : Row) : PyExc + json :=
  match _data r with
  | JObj fields => inr (JObj fields)
  | JArr items => inr (JArr items)
  | _ => inl AttributeError
  end.

(** ** query.py: the rest of QueryResult *)

(** [QueryResult.__iter__] and [QueryResult.all] run over [self.rows]. *)
Definition qr_iter (r : QueryResult) : list Row := rows r.
Definition qr_all (r : QueryResult) : list Row := rows r.

(** [[row.to_dict() for row in rows]]: the first exception ends the
    comprehension. *)
Fixpoint to_dicts (rs : list Row) : PyExc + list json :=
  match rs with
  | [] => inr []
  | r :: rest =>
      match Row_to_dict r with
      | inl e => inl e
      | inr d =>
          match to_dicts rest with
          | inl e => inl e
          | inr ds => inr (d :: ds)
          end
      end
  end.

(** [QueryResult.to_dict_list]. *)
Definition qr_to_dict_list (r : QueryResult) : PyExc + list json :=
  to_dicts (rows r).

(** ** query.py: QueryBuilder *)

Record QueryBuilder : Type := mkQueryBuilder {
  table : string;
  _select_columns : list string;
  _where_clauses : list (string * string * json);
  _order_by_clauses : list (string * string);
  _limit_value : option Z;
  _offset_value : option Z;
  _params : list json
}.

(** [QueryBuilder(table)]. *)
Definition QueryBuilder_init (tbl : string) : QueryBuilder :=
  mkQueryBuilder tbl [] [] [] None None [].

(** [QueryBuilder.select], which takes any number of columns. *)
Definition QueryBuilder_select (cols : list string) (b : QueryBuilder) : QueryBuilder :=
  mkQueryBuilder (table b) (_select_columns b ++ cols) (_where_clauses b)
    (_order_by_clauses b) (_limit_value b) (_offset_value b) (_params b).

(** [QueryBuilder.where(column, operator, value)]. *)
Definition QueryBuilder_where (column operator : string) (value : json)
    (b : QueryBuilder) : QueryBuilder :=
  mkQueryBuilder (table b) (_select_columns b)
    (_where_clauses b ++ [(column, operator, value)])
    (_order_by_clauses b) (_limit_value b) (_offset_value b)
    (_params b ++ [value]).

(** [QueryBuilder.order_by(column, direction)]. *)
Definition QueryBuilder_order_by (column direction : string) (b : QueryBuilder)
    : QueryBuilder :=
  mkQueryBuilder (table b) (_select_columns b) (_where_clauses b)
    (_order_by_clauses b ++ [(column, direction)])
    (_limit_value b) (_offset_value b) (_params b).

(** [QueryBuilder.limit(limit)]. *)
Definition QueryBuilder_limit (limit : Z) (b : QueryBuilder) : QueryBuilder :=
  mkQueryBuilder (table b) (_select_columns b) (_where_clauses b)
    (_order_by_clauses b) (Some limit) (_offset_value b) (_params b).

(** [QueryBuilder.offset(offset)]. *)
Definition QueryBuilder_offset (offset : Z) (b : QueryBuilder) : QueryBuilder :=
  mkQueryBuilder (table b) (_select_columns b) (_where_clauses b)
    (_order_by_clauses b) (_limit_value b) (Some offset) (_params b).

(** [sep.join(parts)]. *)
Fixpoint join (sep : string) (parts : list string) : string :=
  match parts with
  | [] => ""
  | [x] => x
  | x :: rest => x +:+ sep +:+ join sep rest
  end.

(** [QueryBuilder.build]. *)
Definition QueryBuilder_build (b : QueryBuilder) : string :=
  let columns :=
    match _select_columns b with
    | [] => "*"
    | _ => join ", " (_select_columns b)
    end in
  let sql := "SELECT " +:+ columns +:+ " FROM " +:+ table b in
  let sql :=
    match _where_clauses b with
    | [] => sql
    | _ =>
        let where_parts :=
          map (fun c => fst (fst c) +:+ " " +:+ snd (fst c) +:+ " ?")
              (_where_clauses b) in
        sql +:+ " WHERE " +:+ join " AND " where_parts
    end in
  let sql :=
    match _order_by_clauses b with
    | [] => sql
    | _ =>
        let order_parts :=
          map (fun c => fst c +:+ " " +:+ snd c) (_order_by_clauses b) in
        sql +:+ " ORDER BY " +:+ join ", " order_parts
    end in
  let sql :=
    match _limit_value b with
    | Some n => sql +:+ " LIMIT " +:+ py_str_int n
    | None => sql
    end in
  let sql :=
    match _offset_value b with
    | Some n => sql +:+ " OFFSET " +:+ py_str_int n
    | None => sql
    end in
  sql.

(** [QueryBuilder.params]. *)
Definition QueryBuilder_params (b : QueryBuilder) : list json := _params b.

(** The calls of a fluent chain, and the builder they leave. *)
Inductive BuilderCall : Type :=
  | CallSelect (cols : list string)
  | CallWhere (column operator : string) (value : json)
  | CallOrderBy (column direction : string)
  | CallLimit (limit : Z)
  | CallOffset (offset : Z).

Definition builder_call (c : BuilderCall) (b : QueryBuilder) : QueryBuilder :=
  match c with
  | CallSelect cols => QueryBuilder_select cols b
  | CallWhere column operator value => QueryBuilder_where column operator value b
  | CallOrderBy column direction => QueryBuilder_order_by column direction b
  | CallLimit n => QueryBuilder_limit n b
  | CallOffset n => QueryBuilder_offset n b
  end.

Definition chain (tbl : string) (calls : list BuilderCall) : QueryBuilder :=
  fold_left (fun b c => builder_call c b) calls (QueryBuilder_init tbl).

(** How often character [a] occurs in a [str]. *)
Fixpoint count_char (a : ascii) (s : string) : nat :=
  match s with
  | EmptyString => 0%nat
  | String x rest => ((if Ascii.eqb x a then 1 else 0) + count_char a rest)%nat
  end.

(** The texts that a call interpolates into the SQL, and the value it
    binds. *)
Definition call_texts (c : BuilderCall) : list string :=
  match c with
  | CallSelect cols => cols
  | CallWhere column operator _ => [column; operator]
  | CallOrderBy column direction => [column; direction]
  | CallLimit _ | CallOffset _ => []
  end.

Definition call_values (c : BuilderCall) : list json :=
  match c with
  | CallWhere _ _ value => [value]
  | _ => []
  end.

(** ** client.py: Client.connect *)

(** [address.rsplit(":", 1)] when it has two parts: the text before the
    last colon and the text after it. *)
Fixpoint rsplit_colon (s : string) : option (string * string) :=
  match s with
  | EmptyString => None
  | String a rest =>
      match rsplit_colon rest with
      | Some (h, p) => Some (String a h, p)
      | None => if Ascii.eqb a ":" then Some (EmptyString, rest) else None
      end
  end.

Section Connect.

Variable env : Env.

(** [int(text)]: the number, or the message of the [ValueError]. *)
Variable py_int : string -> string + Z.

(** [Client.connect]: the client's pool is the pool of the world. *)
Definition Client_connect (address : string) (min_connections max_connections : Z)
    (tmo : string) : M unit :=
  match rsplit_colon address with
  | None => raise (PyError "not enough values to unpack (expected 2, got 1)")
  | Some (h, port_str) =>
      match py_int port_str with
      | inl e => raise (PyError e)
      | inr p =>
          modify (set_pool (ConnectionPool_init h p min_connections
                              max_connections tmo)) ;;
          ConnectionPool_initialize env
      end
  end.

End Connect.

(** ** Callers of the pool and of a transaction *)

(** The connections that the callers hold. *)
Definition held (tasks : list AcquirePc) : list nat :=
  omap (fun pc => match pc with Holding c => Some c | _ => None end) tasks.

(** No connection is in two hands, or in a hand and in the queue, and every
    connection has a name already given. *)
Definition distinct (s : Sys) : Prop :=
  NoDup (held (sys_tasks s) ++ _available (sys_pool s))
  /\ forall c, c ∈ held (sys_tasks s) ++ _available (sys_pool s) ->
               (c < sys_next s)%nat.

(** The body [await tx.execute(sql, params)] for each statement in turn. *)
Fixpoint run_statements (e : Env) (t : nat)
    (stmts : list (string * option (list json))) : M unit :=
  match stmts with
  | [] => ret tt
  | (sql, params) :: rest =>
      Transaction_execute e t sql params ;;
      run_statements e t rest
  end.

(** A caller that releases each connection of a list, and a caller that
    acquires [n] times; the connections closed, in order. *)
Fixpoint release_all (cs : list nat) : M unit :=
  match cs with
  | [] => ret tt
  | c :: rest => ConnectionPool_release c ;; release_all rest
  end.

Fixpoint acquire_n (e : Env) (n : nat) : M (list nat) :=
  match n with
  | O => ret []
  | S k =>
      c <- ConnectionPool_acquire e ;;
      cs <- acquire_n e k ;;
      ret (c :: cs)
  end.

Definition closed (tr : list Event) : list nat :=
  omap (fun e => match e with EvClose c => Some c | _ => None end) tr.

(** The decoded values that have a [copy] method. *)
Definition has_copy (v : json) : bool :=
  match v with
  | JObj _ | JArr _ => true
  | _ => false
  end.

(** A call with the value it binds replaced by [None]. *)
Definition erase_value (c : BuilderCall) : BuilderCall :=
  match c with
  | CallWhere column operator _ => CallWhere column operator JNull
  | c => c
  end.

(** ** More runs used below *)

(** The second connect is refused, everything else goes well. *)
Definition env_second_refused : Env :=
  mkEnv (fun t => if Nat.eqb t 2 then ConnectFault "Connection refused"
                  else ConnectOk)
        (fun _ => Reply two_rows) (fun _ => None) (fun _ => "<repr>").

(** A new pool of two to three connections, not yet initialized. *)
Definition w_new : World :=
  World_init (ConnectionPool_init "localhost" 5432 2 3 "10.0").

(** [w_one_two] with its idle connection checked out. *)
Definition w_one_two_taken : World :=
  snd (ConnectionPool_acquire env_rows w_one_two).

(** [w_one] with its one connection checked out, and what follows the
    close of that pool: a second caller times out, finds no room and
    waits; the holder releases; the second caller is handed connection
    0. *)
Definition w_one_taken : World := snd (ConnectionPool_acquire env_rows w_one).

Definition late_release : list Action :=
  [Spawn; Run 1 TimedOut; Run 1 Proceed; Run 1 Proceed; Run 0 Proceed;
   Run 1 Proceed].

(** [w_one] whose idle connection was closed behind the pool's back. *)
Definition w_one_dead : World := snd (Connection_close env_rows 0%nat w_one).

(** A body of one insert. *)
Definition one_insert : list (string * option (list json)) :=
  [("INSERT INTO users VALUES (?, ?)", Some [JInt 1; JStr "Alice"])].

(** The chain that the docstring of [QueryBuilder] shows. *)
Definition documented_chain : list BuilderCall :=
  [CallSelect ["id"; "name"; "email"];
   CallWhere "age" ">" (JInt 18);
   CallWhere "active" "=" (JBool true);
   CallOrderBy "name" "ASC";
   CallLimit 10].

(** An [int] that reads the one port text used below. *)
Definition int_5432 (s : string) : string + Z :=
  if String.eqb s "5432" then inr 5432
  else inl "invalid literal for int() with base 10".

(** A result of two rows whose [row_count] was given as 5. *)
Definition miscounted : QueryResult :=
  mkQueryResult [mkRow (JObj [("id", JInt 1)]); mkRow (JObj [("id", JInt 2)])]
                5 (JArr [JStr "id"]) JNull.

(** ** Proof steps *)

(** Open the coroutine combinators. *)
Ltac unfold_m :=
  unfold deref, store in *;
  unfold bind, ret, raise, block, modify, get_world, try_except, try_finally in *.

(** ** Sums over the caller table *)

Section SumInsert.
Context {A : Type} (f : A -> nat).

Lemma sum_list_with_insert (l : list A) (i : nat) (a b : A) :
  l !! i = Some a ->
  (sum_list_with f (<[i := b]> l) + f a = sum_list_with f l + f b)%nat.
Proof.
  revert i. induction l as [|x l IH]; intros [|i] Hi; simplify_eq/=.
  - lia.
  - specialize (IH _ Hi). lia.
Qed.

Lemma sum_list_with_lookup (l : list A) (i : nat) (a : A) :
  l !! i = Some a -> (f a <= sum_list_with f l)%nat.
Proof.
  intros Hi. apply sum_list_with_in. by eapply list_elem_of_lookup_2.
Qed.

End SumInsert.

(** ** The capacity of the pool *)

Lemma queue_get_Some p c p' :
  queue_get p = Some (c, p') ->
  _available p = c :: _available p' /\ _size p' = _size p /\
  max_size p' = max_size p /\ _lock p' = _lock p.
Proof.
  unfold queue_get. destruct (_available p) eqn:E; intros; simplify_eq/=. done.
Qed.

(** A step of one caller keeps what the lock guarantees.  The cases follow
    [task_step]: a caller that stays outside the lock changes neither
    [_size] nor the lock; the caller that leaves the lock leaves nobody
    inside. *)
Lemma task_step_lock_inv r pc p fresh pc' p' tasks i nxt nxt' :
  tasks !! i = Some pc ->
  task_step r pc p fresh = Some (pc', p') ->
  lock_inv (mkSys p tasks nxt) ->
  lock_inv (mkSys p' (<[i := pc']> tasks) nxt').
Proof.
  intros Hi Hstep (Hle & Hlk & Hcon).
  unfold lock_inv in *; simpl in *.
  pose proof (sum_list_with_insert in_lock tasks i pc pc' Hi) as Hl.
  assert (Hother : forall j, <[i := pc']> tasks !! j = Some Connecting ->
            pc' = Connecting \/ tasks !! j = Some Connecting).
  { intros j. rewrite list_lookup_insert. destruct (decide _); naive_solver. }
  assert (Hnone : sum_list_with in_lock (<[i := pc']> tasks) = 0%nat ->
            forall j, <[i := pc']> tasks !! j = Some Connecting -> False).
  { intros H0 j Hj. apply (sum_list_with_lookup in_lock) in Hj. simpl in Hj. lia. }
  pose proof (Hcon i) as Hroom.
  assert (Houtside : pc' <> Connecting ->
            forall j, <[i := pc']> tasks !! j = Some Connecting ->
                      _size p < max_size p).
  { intros Hne j Hj. destruct (Hother j Hj); [done | eauto]. }
  assert (Hleft : (sum_list_with in_lock (<[i := pc']> tasks) + 1
                   = sum_list_with in_lock tasks)%nat ->
            forall j, <[i := pc']> tasks !! j = Some Connecting ->
                      _size p' < max_size p').
  { intros H0 j Hj. exfalso. eapply Hnone; [|exact Hj].
    destruct (_lock p); lia. }
  destruct pc, r; simpl in Hstep; try discriminate.
  - (* Polling, an idle connection is there *)
    destruct (queue_get p) as [[c q]|] eqn:Hq; simplify_eq/=.
    apply queue_get_Some in Hq as (_ & Hs & Hm & Hk). rewrite Hs, Hm, Hk.
    repeat split; [lia.. | by apply Houtside].
  - (* Polling, the bounded wait times out *)
    simplify_eq/=. repeat split; [lia.. | by apply Houtside].
  - (* LockWait, the lock is free *)
    destruct (_lock p) eqn:Hk; simplify_eq/=.
    repeat split; [lia.. | by apply Houtside].
  - (* Locked, the test *)
    destruct (_size p <? max_size p) eqn:Hlt; simplify_eq/=.
    + repeat split; lia.
    + repeat split; [lia | destruct (_lock p); lia | apply Hleft; lia].
  - (* Connecting, the connect succeeds *)
    simplify_eq/=. specialize (Hroom Hi).
    repeat split; [lia | destruct (_lock p); lia | apply Hleft; lia].
  - (* Connecting, the connect fails *)
    simplify_eq/=.
    repeat split; [lia | destruct (_lock p); lia | apply Hleft; lia].
  - (* Waiting, an idle connection is there *)
    destruct (queue_get p) as [[c q]|] eqn:Hq; simplify_eq/=.
    apply queue_get_Some in Hq as (_ & Hs & Hm & Hk). rewrite Hs, Hm, Hk.
    repeat split; [lia.. | by apply Houtside].
  - (* Holding, the release *)
    simplify_eq/=. repeat split; [lia.. | by apply Houtside].
Qed.

(** A step of one caller moves a connection between the queue and a
    holder, or creates one and counts it. *)
Lemma task_step_counted r pc p fresh pc' p' tasks i nxt nxt' :
  tasks !! i = Some pc ->
  task_step r pc p fresh = Some (pc', p') ->
  counted (mkSys p tasks nxt) ->
  counted (mkSys p' (<[i := pc']> tasks) nxt').
Proof.
  intros Hi Hstep Hsz. unfold counted, live_count in *; simpl in *.
  pose proof (sum_list_with_insert holding tasks i pc pc' Hi) as Hh.
  destruct pc, r; simpl in Hstep; try discriminate;
    repeat case_match; simplify_eq/=;
    try match goal with H : queue_get _ = Some _ |- _ =>
          apply queue_get_Some in H as (Ha & Hs & _); rewrite Ha in *; rewrite Hs
        end;
    rewrite ?length_app; simpl in *; lia.
Qed.

(** [_create_connection] counts the connection it returns and touches the
    pool in no other way. *)
Lemma create_connection_pool env w r w' :
  _create_connection env w = (r, w') ->
  pool w' = match r with Ret _ => size_incr (pool w) | _ => pool w end
  /\ match r with Ret c => c = next_conn w | _ => True end.
Proof.
  unfold _create_connection, Connection_connect, Connection_init. unfold_m. simpl.
  rewrite lookup_insert_eq. simpl.
  destruct (connect_outcome env _); intros; simplify_eq/=; done.
Qed.

Lemma initialize_loop_Ret env n : forall w w',
  initialize_loop env n w = (Ret tt, w') ->
  _size (pool w') = _size (pool w) + Z.of_nat n
  /\ length (_available (pool w')) = (length (_available (pool w)) + n)%nat
  /\ max_size (pool w') = max_size (pool w)
  /\ min_size (pool w') = min_size (pool w)
  /\ _lock (pool w') = _lock (pool w).
Proof.
  induction n as [|n IH]; intros w w' Hrun; simpl in Hrun.
  - unfold_m. simplify_eq. repeat split; lia.
  - unfold bind at 1 in Hrun.
    destruct (_create_connection env w) as [[c| |] w1] eqn:Hc; try discriminate.
    apply create_connection_pool in Hc as [Hp _].
    unfold bind at 1, modify in Hrun.
    apply IH in Hrun as (H1 & H2 & H3 & H4 & H5). simpl in *.
    rewrite Hp in *. simpl in *. rewrite length_app in H2. simpl in H2.
    repeat split; try lia; congruence.
Qed.

Lemma sys_step_lock_inv a s s' :
  sys_step a s = Some s' -> lock_inv s -> lock_inv s'.
Proof.
  destruct a as [|i r|c]; simpl.
  - intros ? (Hle & Hlk & Hcon); simplify_eq.
    unfold lock_inv in *; simpl in *.
    rewrite !sum_list_with_app. simpl. repeat split; try lia.
    intros i Hi. apply lookup_app_Some in Hi as [Hi | [_ Hi]]; [eauto |].
    destruct (i - length (sys_tasks s))%nat; simplify_eq/=.
  - destruct (sys_tasks s !! i) as [pc|] eqn:Hi; [|done].
    destruct (task_step r pc (sys_pool s) (sys_next s)) as [[pc' p']|] eqn:Hst; [|done].
    intros ? Hinv; simplify_eq. destruct s as [p tasks nxt]; simpl in *.
    eapply task_step_lock_inv; eauto.
  - intros ? Hinv; simplify_eq. exact Hinv.
Qed.

Lemma sys_step_counted a s s' :
  paired a = true ->
  sys_step a s = Some s' -> counted s -> counted s'.
Proof.
  destruct a as [|i r|c]; simpl; intros Hp; [| |done].
  - intros ? Hsz; simplify_eq. unfold counted, live_count in *; simpl in *.
    rewrite !sum_list_with_app. simpl. lia.
  - destruct (sys_tasks s !! i) as [pc|] eqn:Hi; [|done].
    destruct (task_step r pc (sys_pool s) (sys_next s)) as [[pc' p']|] eqn:Hst; [|done].
    intros ? Hinv; simplify_eq. destruct s as [p tasks nxt]; simpl in *.
    eapply task_step_counted; eauto.
Qed.

Lemma sys_step_max_size a s s' :
  sys_step a s = Some s' -> max_size (sys_pool s') = max_size (sys_pool s).
Proof.
  destruct a as [|i r|c]; simpl; [by intros; simplify_eq| |by intros; simplify_eq].
  destruct (sys_tasks s !! i) as [pc|]; [|done].
  destruct (task_step r pc (sys_pool s) (sys_next s)) as [[pc' p']|] eqn:Hst; [|done].
  intros; simplify_eq/=.
  destruct pc, r; simpl in Hst; repeat case_match; simplify_eq/=; try done.
  all: match goal with H : queue_get _ = Some _ |- _ =>
         apply queue_get_Some in H; tauto end.
Qed.

(** Whatever is released, the pool never counts more connections than
    [max_size]. *)
Lemma sys_run_lock_inv acts : forall s s',
  sys_run acts s = Some s' ->
  lock_inv s -> lock_inv s' /\ max_size (sys_pool s') = max_size (sys_pool s).
Proof.
  induction acts as [|a acts IH]; intros s s' Hrun Hinv; simpl in Hrun.
  - by simplify_eq.
  - destruct (sys_step a s) as [s1|] eqn:Hs; [|done].
    destruct (IH _ _ Hrun (sys_step_lock_inv _ _ _ Hs Hinv)) as [? Hm].
    split; [done|]. rewrite Hm. eauto using sys_step_max_size.
Qed.

(** When every release is a holder's, that count is the live count. *)
Lemma sys_run_counted acts : forall s s',
  forallb paired acts = true ->
  sys_run acts s = Some s' -> counted s -> counted s'.
Proof.
  induction acts as [|a acts IH]; intros s s' Hp Hrun Hinv; simpl in Hrun.
  - by simplify_eq.
  - simpl in Hp. apply andb_prop in Hp as [Ha Hp].
    destruct (sys_step a s) as [s1|] eqn:Hs; [|done].
    eauto using sys_step_counted.
Qed.

(** A completed [initialize()] leaves [min_size] idle connections, counted,
    and the lock free. *)
Lemma initialize_establishes env h p tmo mn mx w :
  0 <= mn <= mx ->
  ConnectionPool_initialize env (World_init (ConnectionPool_init h p mn mx tmo))
    = (Ret tt, w) ->
  live_count (Sys_init w) = mn /\ counted (Sys_init w) /\ lock_inv (Sys_init w)
  /\ max_size (pool w) = mx.
Proof.
  intros Hm Hinit. unfold ConnectionPool_initialize in Hinit.
  unfold bind at 1, get_world in Hinit. simpl in Hinit.
  apply initialize_loop_Ret in Hinit as (Hs & Hl & Hmx & Hmn & Hk). simpl in *.
  assert (Hlive : live_count (Sys_init w) = mn).
  { unfold live_count, Sys_init. simpl. lia. }
  split; [done|]. split; [|split; [|done]].
  - unfold counted. rewrite Hlive. unfold Sys_init; simpl. lia.
  - unfold lock_inv, Sys_init; simpl. rewrite Hk, Hmx.
    repeat split; [lia|]. intros i Hi. done.
Qed.

(** Whatever the callers do, stray releases included, the pool's own count
    of the connections it created never exceeds [max_size]. *)
Lemma created_never_exceeds_max_size env h p tmo mn mx w acts s :
  0 <= mn <= mx ->
  ConnectionPool_initialize env (World_init (ConnectionPool_init h p mn mx tmo))
    = (Ret tt, w) ->
  sys_run acts (Sys_init w) = Some s -> _size (sys_pool s) <= mx.
Proof.
  intros Hm Hinit Hrun.
  destruct (initialize_establishes _ _ _ _ _ _ _ Hm Hinit) as (_ & _ & Hinv & Hmx).
  destruct (sys_run_lock_inv _ _ _ Hrun Hinv) as [(Hle & _) Hmax].
  unfold Sys_init in Hmax; simpl in Hmax. lia.
Qed.

(** C1 (amended): for every pool configured with
    [0 <= min_size <= max_size], once [initialize()] has completed the live
    count (connections checked out plus connections idle) equals
    [min_size], and after every interleaving of concurrent [acquire] and
    [release] calls in which each [release] hands back a connection that
    its caller acquired and holds, the live count never exceeds
    [max_size]. *)
Theorem pool_capacity_invariant env h p tmo mn mx w :
  0 <= mn <= mx ->
  ConnectionPool_initialize env (World_init (ConnectionPool_init h p mn mx tmo))
    = (Ret tt, w) ->
  live_count (Sys_init w) = mn
  /\ forall acts s,
       forallb paired acts = true ->
       sys_run acts (Sys_init w) = Some s -> live_count s <= mx.
Proof.
  intros Hm Hinit.
  destruct (initialize_establishes _ _ _ _ _ _ _ Hm Hinit) as (Hlive & Hcnt & _).
  split; [done|]. intros acts s Hp Hrun.
  pose proof (sys_run_counted _ _ _ Hp Hrun Hcnt) as Hc. unfold counted in Hc.
  pose proof (created_never_exceeds_max_size _ _ _ _ _ _ _ _ _ Hm Hinit Hrun). lia.
Qed.

(** ** Connection.execute *)

Lemma link_state_Connected conn :
  link_state conn = Connected <-> _connected conn = true /\ _streams conn = true.
Proof.
  unfold link_state. destruct (_connected conn), (_streams conn); simpl; naive_solver.
Qed.

(** What a connected connection does with a request, by the answer of the
    environment. *)
Lemma Connection_execute_connected env w c conn query params :
  heap w !! c = Some conn -> link_state conn = Connected ->
  Connection_execute env c query params w =
    try_except
      (response <- (match exchange env (now w) with
                    | Reply response => ret response
                    | BadJson e => raise (JSONDecodeError e)
                    | Fault e => raise (PyError e)
                    | Hang => block
                    end) ;;
       ty <- response_get response "type" JNull ;;
       if py_eq_str ty "error" then
         msg <- response_get response "message" (JStr "Unknown error") ;;
         raise (QueryError (py_str env msg))
       else
         rows_v <- response_get response "rows" (JArr []) ;;
         match py_iter rows_v with
         | None => raise (PyError ("'" +:+ py_type_name rows_v +:+
                                   "' object is not iterable"))
         | Some items =>
             let rows := map mkRow items in
             cols <- response_get response "columns" (JArr []) ;;
             ms <- response_get response "execution_time_ms" JNull ;;
             ret (mkQueryResult rows (Z.of_nat (length rows)) cols ms)
         end)
      execute_handler
      (log (EvSend c query (params_or_empty params)) w).
Proof.
  intros Hc [Hcon Hstr]%link_state_Connected.
  unfold Connection_execute, execute_body, round_trip. unfold_m.
  rewrite Hc, Hcon, Hstr. simpl. by destruct (exchange env (now w)).
Qed.

Lemma Connection_execute_frame env c query params w r w' :
  Connection_execute env c query params w = (r, w') ->
  w' = w \/ w' = log (EvSend c query (params_or_empty params)) w.
Proof.
  unfold Connection_execute, execute_body, round_trip, execute_handler,
    response_get. unfold_m.
  intros H. repeat (case_match; simplify_eq/=); auto.
Qed.

(** C8: for every [execute] on a Connected connection, a response tagged
    ["error"] raises [QueryError] carrying the server's message (the text
    ["Unknown error"] when the server gave none), a response that is not
    JSON raises [QueryError] with the decoder's message, any other fault of
    the exchange raises [QueryError] too, and whenever the exchange ends the
    call either returns a complete [QueryResult] or raises [QueryError]. *)
Theorem Connection_execute_failures env w c conn query params :
  heap w !! c = Some conn -> link_state conn = Connected ->
  (forall fields,
      exchange env (now w) = Reply (JObj fields) ->
      py_eq_str (dict_get fields "type" JNull) "error" = true ->
      fst (Connection_execute env c query params w)
      = Raise (QueryError ("Query execution failed: " +:+
                 py_str env (dict_get fields "message" (JStr "Unknown error"))))
      /\ forall m, assoc_get "message" fields = Some (JStr m) ->
           fst (Connection_execute env c query params w)
           = Raise (QueryError ("Query execution failed: " +:+ m)))
  /\ (forall m, exchange env (now w) = BadJson m ->
        fst (Connection_execute env c query params w)
        = Raise (QueryError ("Invalid response from server: " +:+ m)))
  /\ (forall m, exchange env (now w) = Fault m ->
        fst (Connection_execute env c query params w)
        = Raise (QueryError ("Query execution failed: " +:+ m)))
  /\ (exchange env (now w) <> Hang ->
        (exists rows cols ms,
            fst (Connection_execute env c query params w)
            = Ret (mkQueryResult rows (Z.of_nat (length rows)) cols ms))
        \/ (exists m, fst (Connection_execute env c query params w)
                      = Raise (QueryError m))).
Proof.
  intros Hc Hst.
  rewrite (Connection_execute_connected _ _ _ _ _ _ Hc Hst).
  repeat split.
  - intros. unfold_m. rewrite H. simpl. unfold_m. rewrite H0. done.
  - intros m Hm. unfold_m. rewrite H. simpl. unfold_m. rewrite H0.
    unfold dict_get. rewrite Hm. done.
  - intros m Hm. unfold_m. rewrite Hm. done.
  - intros m Hm. unfold_m. rewrite Hm. done.
  - intros Hh. unfold response_get, execute_handler. unfold_m.
    destruct (exchange env (now w)) as [resp| | |]; try done; simpl; eauto.
    repeat (case_match; simplify_eq/=); eauto 10.
Qed.

(** ** Traces of the pool and the facade *)

Lemma acquired_snoc tr e :
  acquired (tr ++ [e]) =
  acquired tr ++ match e with EvAcquire c => [c] | _ => [] end.
Proof. unfold acquired. rewrite omap_app. by destruct e. Qed.

Lemma released_snoc tr e :
  released (tr ++ [e]) =
  released tr ++ match e with EvRelease c => [c] | _ => [] end.
Proof. unfold released. rewrite omap_app. by destruct e. Qed.

Lemma sent_on_snoc c tr e :
  sent_on c (tr ++ [e]) =
  sent_on c tr ++ match e with
                  | EvSend c' q _ => if Nat.eqb c' c then [q] else []
                  | _ => []
                  end.
Proof.
  unfold sent_on. rewrite omap_app. destruct e; try done.
  simpl. by destruct (Nat.eqb _ _).
Qed.

Ltac trace_simpl :=
  simpl; rewrite ?acquired_snoc, ?released_snoc, ?sent_on_snoc; simpl;
  rewrite ?app_nil_r.

Lemma create_connection_trace env w r w' :
  _create_connection env w = (r, w') ->
  trace w' = trace w ++ [EvCreate (next_conn w)]
  /\ txs w' = txs w /\ next_tx w' = next_tx w.
Proof.
  unfold _create_connection, Connection_connect, Connection_init. unfold_m. simpl.
  rewrite lookup_insert_eq. simpl.
  destruct (connect_outcome env _); intros; simplify_eq/=; done.
Qed.

(** [ConnectionPool.acquire] by the state of the pool. *)
Lemma ConnectionPool_acquire_unfold env w :
  ConnectionPool_acquire env w =
  match _available (pool w) with
  | c :: q => (Ret c, log (EvAcquire c) (set_pool (set_available q (pool w)) w))
  | [] =>
      if _lock (pool w) then (Blocked, w)
      else if _size (pool w) <? max_size (pool w) then
        match _create_connection env (set_pool (set_lock true (pool w)) w) with
        | (Ret c, w1) =>
            (Ret c, log (EvAcquire c) (set_pool (set_lock false (pool w1)) w1))
        | (Raise e, w1) => (Raise e, set_pool (set_lock false (pool w1)) w1)
        | (Blocked, w1) => (Blocked, w1)
        end
      else (Blocked, set_pool (set_lock false (set_lock true (pool w))) w)
  end.
Proof.
  unfold ConnectionPool_acquire, available_get, with_lock, queue_get.
  unfold_m. simpl.
  destruct (_available (pool w)) as [|c q] eqn:Ha; simpl; [|done].
  destruct (_lock (pool w)); simpl; [done|].
  destruct (_size (pool w) <? max_size (pool w)); simpl; rewrite ?Ha; [|done].
  destruct (_create_connection env _) as [[c|e|] w1]; done.
Qed.

(** [acquire] releases nothing, sends nothing, touches no transaction, and
    hands out the one connection it returns. *)
Lemma ConnectionPool_acquire_trace env w r w' :
  ConnectionPool_acquire env w = (r, w') ->
  released (trace w') = released (trace w)
  /\ (forall c, sent_on c (trace w') = sent_on c (trace w))
  /\ txs w' = txs w /\ next_tx w' = next_tx w
  /\ acquired (trace w') =
     acquired (trace w) ++ match r with Ret c => [c] | _ => [] end.
Proof.
  rewrite ConnectionPool_acquire_unfold. intros H.
  destruct (_available (pool w)) as [|c q]; simplify_eq/=.
  - destruct (_lock (pool w)); simplify_eq/=.
    { rewrite app_nil_r. done. }
    destruct (_size (pool w) <? max_size (pool w)); simplify_eq/=.
    2: { rewrite app_nil_r. done. }
    destruct (_create_connection env _) as [r1 w1] eqn:Hc.
    apply create_connection_trace in Hc as (Ht & Hx & Hn). simpl in *.
    destruct r1; simplify_eq/=; rewrite Ht; repeat split; intros; trace_simpl; done.
  - repeat split; intros; trace_simpl; done.
Qed.

Lemma Connection_execute_trace env c query params w r w' :
  Connection_execute env c query params w = (r, w') ->
  heap w' = heap w /\ pool w' = pool w /\ txs w' = txs w
  /\ acquired (trace w') = acquired (trace w)
  /\ released (trace w') = released (trace w)
  /\ forall c', sent_on c' (trace w') = sent_on c' (trace w)
                \/ (c' = c /\ sent_on c' (trace w') = sent_on c' (trace w) ++ [query]).
Proof.
  intros [-> | ->]%Connection_execute_frame; repeat split; auto;
    try (trace_simpl; done).
  intros c'. trace_simpl.
  destruct (Nat.eqb_spec c c'); subst; rewrite ?app_nil_r; auto.
Qed.

(** [Client.query], phase by phase. *)
Lemma Client_query_unfold env sql params tmo w :
  Client_query env sql params tmo w =
  match ConnectionPool_acquire env w with
  | (Ret c, w1) =>
      match Connection_execute env c sql params w1 with
      | (Blocked, w2) => (Blocked, w2)
      | (r, w2) => (r, after_release c w2)
      end
  | (Raise e, w1) => (Raise e, w1)
  | (Blocked, w1) => (Blocked, w1)
  end.
Proof.
  unfold Client_query, ConnectionPool_release. unfold_m.
  destruct (ConnectionPool_acquire env w) as [[c|e|] w1]; [|done..].
  by destruct (Connection_execute env c sql params w1) as [[qr|e|] w2].
Qed.

(** C6: [Client.query] acquires exactly one connection and releases that
    same connection on every exit path.  Whatever connection [acquire]
    returns, and whatever [execute] then does with it, [query] ends with
    the outcome of [execute] (the result is returned, the failure is
    raised) after releasing that connection exactly once, as the last
    thing it did; only while the server has not answered is the connection
    still checked out, and then [query] has not ended.  When [acquire]
    raises, [query] raises the same with nothing acquired and nothing
    released; while [acquire] waits, [query] waits and holds nothing.  The
    last part is the [try]/[finally] of [query] on its own, for every
    connection and every state of the pool: it is what runs when a caller
    that [acquire] kept waiting at a full pool is handed a connection. *)
Theorem Client_query_releases env sql params tmo w :
  (forall c w1 rx w2,
      ConnectionPool_acquire env w = (Ret c, w1) ->
      Connection_execute env c sql params w1 = (rx, w2) ->
      rx <> Blocked ->
      Client_query env sql params tmo w = (rx, after_release c w2)
      /\ acquired (trace (after_release c w2)) = acquired (trace w) ++ [c]
      /\ released (trace (after_release c w2)) = released (trace w) ++ [c]
      /\ last (_available (pool (after_release c w2))) = Some c)
  /\ (forall c w1 w2,
      ConnectionPool_acquire env w = (Ret c, w1) ->
      Connection_execute env c sql params w1 = (Blocked, w2) ->
      Client_query env sql params tmo w = (Blocked, w2)
      /\ acquired (trace w2) = acquired (trace w) ++ [c]
      /\ released (trace w2) = released (trace w))
  /\ (forall e w1,
      ConnectionPool_acquire env w = (Raise e, w1) ->
      Client_query env sql params tmo w = (Raise e, w1)
      /\ acquired (trace w1) = acquired (trace w)
      /\ released (trace w1) = released (trace w))
  /\ (forall w1,
      ConnectionPool_acquire env w = (Blocked, w1) ->
      Client_query env sql params tmo w = (Blocked, w1)
      /\ acquired (trace w1) = acquired (trace w)
      /\ released (trace w1) = released (trace w))
  /\ (forall c w1 rx w2,
      Connection_execute env c sql params w1 = (rx, w2) ->
      rx <> Blocked ->
      try_finally (Connection_execute env c sql params)
                  (ConnectionPool_release c) w1
      = (rx, after_release c w2)
      /\ acquired (trace (after_release c w2)) = acquired (trace w1)
      /\ released (trace (after_release c w2)) = released (trace w1) ++ [c]
      /\ last (_available (pool (after_release c w2))) = Some c).
Proof.
  assert (Hbody : forall c w1 rx w2,
      Connection_execute env c sql params w1 = (rx, w2) ->
      rx <> Blocked ->
      try_finally (Connection_execute env c sql params)
                  (ConnectionPool_release c) w1
      = (rx, after_release c w2)
      /\ acquired (trace (after_release c w2)) = acquired (trace w1)
      /\ released (trace (after_release c w2)) = released (trace w1) ++ [c]
      /\ last (_available (pool (after_release c w2))) = Some c).
  { intros c w1 rx w2 Hex Hrx.
    unfold try_finally, ConnectionPool_release, modify. rewrite Hex.
    apply Connection_execute_trace in Hex as (_ & _ & _ & Ha & Hr & _).
    split; [by destruct rx|].
    repeat split; trace_simpl; [done | by rewrite Hr | apply last_snoc]. }
  split; [|split; [|split; [|split; [|exact Hbody]]]].
  - intros c w1 rx w2 Hacq Hex Hrx.
    destruct (Hbody c w1 rx w2 Hex Hrx) as (_ & Ha & Hr & Hl).
    apply ConnectionPool_acquire_trace in Hacq as Ht.
    destruct Ht as (Hrel & _ & _ & _ & Hacq').
    rewrite Client_query_unfold, Hacq, Hex.
    split; [by destruct rx|].
    rewrite Ha, Hr, Hacq', Hrel. done.
  - intros c w1 w2 Hacq Hex.
    apply ConnectionPool_acquire_trace in Hacq as Ht.
    destruct Ht as (Hrel & _ & _ & _ & Hacq').
    rewrite Client_query_unfold, Hacq, Hex.
    apply Connection_execute_trace in Hex as (_ & _ & _ & Ha & Hr & _).
    rewrite Ha, Hr, Hacq', Hrel. done.
  - intros e w1 Hacq.
    apply ConnectionPool_acquire_trace in Hacq as Ht.
    destruct Ht as (Hrel & _ & _ & _ & Hacq'). simpl in Hacq'.
    rewrite app_nil_r in Hacq'.
    rewrite Client_query_unfold, Hacq. done.
  - intros w1 Hacq.
    apply ConnectionPool_acquire_trace in Hacq as Ht.
    destruct Ht as (Hrel & _ & _ & _ & Hacq'). simpl in Hacq'.
    rewrite app_nil_r in Hacq'.
    rewrite Client_query_unfold, Hacq. done.
Qed.

Lemma Client_query_sent env sql params tmo w c :
  sent_on c (trace (snd (Client_query env sql params tmo w))) = sent_on c (trace w)
  \/ sent_on c (trace (snd (Client_query env sql params tmo w)))
     = sent_on c (trace w) ++ [sql].
Proof.
  rewrite Client_query_unfold.
  destruct (ConnectionPool_acquire env w) as [[c0|e|] w1] eqn:Hacq;
    apply ConnectionPool_acquire_trace in Hacq as (_ & Hs & _); simpl; auto.
  destruct (Connection_execute env c0 sql params w1) as [r2 w2] eqn:Hex.
  apply Connection_execute_trace in Hex as (_ & _ & _ & _ & _ & Hs2).
  assert (sent_on c (trace (after_release c0 w2)) = sent_on c (trace w2))
    by (trace_simpl; done).
  assert (sent_on c (trace w2) = sent_on c (trace w)
          \/ sent_on c (trace w2) = sent_on c (trace w) ++ [sql]) as Hw2
    by (destruct (Hs2 c) as [E | [_ E]]; rewrite E, Hs; auto).
  destruct r2; cbn [snd]; rewrite ?H; exact Hw2.
Qed.

(** [str(n)] is the decimal numeral of [n]: reading it back gives [n]. *)
Lemma py_str_int_parse (z : Z) :
  NilZero.int_of_string (py_str_int z) = Some (Z.to_int z).
Proof.
  unfold py_str_int. apply NilZero.isi; destruct z; simpl; try done.
  all: intros [= H]; by apply DecimalPos.Unsigned.to_uint_nonnil in H.
Qed.

(** C7: [query_at_seq] is [query] of the text [sql] followed by
    [" FOR SYSTEM_TIME AS OF @SEQ:"] and the decimal numeral of [sequence];
    [query_at_time] on a timestamp string is [query] of [sql] followed by
    [" FOR SYSTEM_TIME AS OF '"], the timestamp as given, and ["'"]; this
    holds for every integer and every string, nothing is escaped or
    rejected, and that text is the only request either call writes. *)
Theorem time_travel_rewrite env sql sequence ts params :
  Client_query_at_seq env sql sequence params
  = Client_query env
      (sql +:+ " FOR SYSTEM_TIME AS OF @SEQ:" +:+ py_str_int sequence) params None
  /\ Client_query_at_time env sql (TsStr ts) params
     = Client_query env (sql +:+ " FOR SYSTEM_TIME AS OF '" +:+ ts +:+ "'") params
         None
  /\ NilZero.int_of_string (py_str_int sequence) = Some (Z.to_int sequence)
  /\ Z.of_int (Z.to_int sequence) = sequence
  /\ (forall w c,
        sent_on c (trace (snd (Client_query_at_seq env sql sequence params w)))
        = sent_on c (trace w)
        \/ sent_on c (trace (snd (Client_query_at_seq env sql sequence params w)))
           = sent_on c (trace w)
             ++ [sql +:+ " FOR SYSTEM_TIME AS OF @SEQ:" +:+ py_str_int sequence])
  /\ (forall w c,
        sent_on c (trace (snd (Client_query_at_time env sql (TsStr ts) params w)))
        = sent_on c (trace w)
        \/ sent_on c (trace (snd (Client_query_at_time env sql (TsStr ts) params w)))
           = sent_on c (trace w)
             ++ [sql +:+ " FOR SYSTEM_TIME AS OF '" +:+ ts +:+ "'"]).
Proof.
  repeat split.
  - apply py_str_int_parse.
  - apply DecimalZ.of_to.
  - intros. apply Client_query_sent.
  - intros. apply Client_query_sent.
Qed.

(** A result comes only from a connected connection and a reply that is an
    object, not tagged as an error, with iterable rows. *)
Lemma Connection_execute_Ret env c query params w qr w' :
  Connection_execute env c query params w = (Ret qr, w') ->
  exists conn fields items,
    heap w !! c = Some conn /\ link_state conn = Connected
    /\ exchange env (now w) = Reply (JObj fields)
    /\ py_eq_str (dict_get fields "type" JNull) "error" = false
    /\ py_iter (dict_get fields "rows" (JArr [])) = Some items
    /\ qr = mkQueryResult (map mkRow items) (Z.of_nat (length (map mkRow items)))
              (dict_get fields "columns" (JArr []))
              (dict_get fields "execution_time_ms" JNull)
    /\ w' = log (EvSend c query (params_or_empty params)) w.
Proof.
  unfold Connection_execute, execute_body, round_trip, execute_handler,
    response_get. unfold_m.
  intros H. destruct (heap w !! c) as [conn|] eqn:Hc; [|done].
  exists conn.
  destruct (_connected conn) eqn:Hcon; [|done]. simpl in H.
  destruct (_streams conn) eqn:Hstr; [|done]. simpl in H.
  destruct (exchange env (now w)) as [resp| | |]; try done.
  destruct resp as [| | | | | |fields]; try done.
  exists fields.
  destruct (py_eq_str (dict_get fields "type" JNull) "error") eqn:Hty; [done|].
  destruct (py_iter (dict_get fields "rows" (JArr []))) as [items|] eqn:Hit; [|done].
  exists items. simplify_eq/=. repeat split; try done.
  apply link_state_Connected. done.
Qed.

(** A connected connection hands every request to its writer. *)
Lemma Connection_execute_connected_world env w c conn query params :
  heap w !! c = Some conn -> link_state conn = Connected ->
  snd (Connection_execute env c query params w)
  = log (EvSend c query (params_or_empty params)) w.
Proof.
  intros Hc Hst. rewrite (Connection_execute_connected _ _ _ _ _ _ Hc Hst).
  unfold response_get, execute_handler. unfold_m.
  repeat (case_match; simplify_eq/=); done.
Qed.

(** C10: every [QueryResult] that [Connection.execute] returns has
    [row_count] equal to the length of [rows], so [len(result)] is the
    number of rows, every index [0 <= i < row_count] selects a row, and
    [Client.execute] returns the number of rows of the server's response. *)
Theorem QueryResult_row_count env w c query params qr w' :
  Connection_execute env c query params w = (Ret qr, w') ->
  row_count qr = Z.of_nat (length (rows qr))
  /\ qr_len qr = Z.of_nat (length (rows qr))
  /\ (forall i, 0 <= i < row_count qr ->
        exists row, qr_getitem qr i = inr row
                    /\ rows qr !! Z.to_nat i = Some row)
  /\ exists fields items,
       exchange env (now w) = Reply (JObj fields)
       /\ py_iter (dict_get fields "rows" (JArr [])) = Some items
       /\ rows qr = map mkRow items
       /\ forall w0, ConnectionPool_acquire env w0 = (Ret c, w) ->
            fst (Client_execute env query params w0) = Ret (Z.of_nat (length items)).
Proof.
  intros Hex.
  destruct (Connection_execute_Ret _ _ _ _ _ _ _ Hex)
    as (conn & fields & items & Hc & Hst & Hrep & Hty & Hit & -> & ->).
  simpl. repeat split.
  - intros i Hi. unfold qr_getitem. simpl.
    destruct (i <? 0) eqn:Hneg; [lia|].
    destruct (lookup_lt_is_Some_2 (map mkRow items) (Z.to_nat i)) as [row Hrow];
      [lia|].
    exists row. rewrite Hrow.
    replace ((0 <=? i) && (i <? Z.of_nat (length (map mkRow items)))) with true
      by (symmetry; apply andb_true_intro; split; lia).
    done.
  - exists fields, items. repeat split; try done.
    intros w0 Hacq. unfold Client_execute. unfold bind at 1.
    rewrite Client_query_unfold, Hacq, Hex. simpl.
    by rewrite length_map.
Qed.

(** ** Transaction *)

Lemma tx_conn_lookup w t tx :
  txs w !! t = Some tx -> tx_conn t w = (Ret (_conn tx), w).
Proof. unfold tx_conn. by intros ->. Qed.

(** [Transaction.__aexit__] of a bound transaction, phase by phase. *)
Lemma Transaction_aexit_bound env w t c exc :
  txs w !! t = Some (mkTransaction (Some c)) ->
  Transaction_aexit env t exc w =
  match Connection_execute env c (exit_statement exc) None w with
  | (Ret _, w1) => (Ret tt, after_release c w1)
  | (Raise e, w1) => (Raise e, after_release c w1)
  | (Blocked, w1) => (Blocked, w1)
  end.
Proof.
  intros Ht.
  destruct (Connection_execute env c (exit_statement exc) None w)
    as [r1 w1] eqn:Hex.
  pose proof (Connection_execute_trace _ _ _ _ _ _ _ Hex) as (_ & _ & Htx & _).
  assert (Ht1 : txs w1 !! t = Some (mkTransaction (Some c))) by by rewrite Htx.
  unfold Transaction_aexit, try_finally, ConnectionPool_release.
  unfold bind at 1. rewrite (tx_conn_lookup _ _ _ Ht). simpl.
  unfold exit_statement in Hex. destruct exc; unfold bind at 1; rewrite Hex;
    destruct r1; try done; unfold ret, bind, modify;
    rewrite (tx_conn_lookup _ _ _ Ht1); done.
Qed.

(** C4: on exit of a transaction bound to connection [c], [COMMIT] is
    issued on [c] when the scope raised nothing and [ROLLBACK] otherwise,
    and whether that call returns or raises, [c] is released back to the
    pool, the failure of the call being raised after the release. *)
Theorem Transaction_aexit_releases env w t c exc r1 w1 :
  txs w !! t = Some (mkTransaction (Some c)) ->
  Connection_execute env c (exit_statement exc) None w = (r1, w1) ->
  r1 <> Blocked ->
  Transaction_aexit env t exc w
  = (match r1 with Ret _ => Ret tt | Raise e => Raise e | Blocked => Blocked end,
     after_release c w1)
  /\ released (trace (after_release c w1)) = released (trace w) ++ [c]
  /\ last (_available (pool (after_release c w1))) = Some c
  /\ (forall conn, heap w !! c = Some conn -> link_state conn = Connected ->
        sent_on c (trace w1) = sent_on c (trace w) ++ [exit_statement exc]).
Proof.
  intros Ht Hex Hr.
  pose proof (Connection_execute_trace _ _ _ _ _ _ _ Hex)
    as (_ & _ & _ & _ & Hrel & _).
  repeat split.
  - rewrite (Transaction_aexit_bound _ _ _ _ _ Ht), Hex. by destruct r1.
  - trace_simpl. by rewrite Hrel.
  - simpl. apply last_snoc.
  - intros conn Hc Hst.
    pose proof (Connection_execute_connected_world env _ _ _
                  (exit_statement exc) None Hc Hst) as Hw.
    rewrite Hex in Hw. simpl in Hw. subst w1. trace_simpl.
    by rewrite Nat.eqb_refl.
Qed.

(** The guard of [execute], [commit] and [rollback]: on a transaction that
    holds no connection (never entered, or entered while [acquire] failed)
    they raise [QueryError] with the message ["Transaction not started"]
    and leave the world as it was, so nothing is sent on any connection. *)
Theorem Transaction_not_started env w t sql params :
  txs w !! t = Some (mkTransaction None) ->
  Transaction_execute env t sql params w
    = (Raise (QueryError "Transaction not started"), w)
  /\ Transaction_commit env t w
    = (Raise (QueryError "Transaction not started"), w)
  /\ Transaction_rollback env t w
    = (Raise (QueryError "Transaction not started"), w).
Proof.
  intros Ht. unfold Transaction_execute, Transaction_commit, Transaction_rollback.
  unfold bind. rewrite (tx_conn_lookup _ _ _ Ht). done.
Qed.

(** A transaction that [Client.transaction] just made holds no connection. *)
Lemma Client_transaction_fresh w :
  txs (snd (Client_transaction w)) !! next_tx w = Some (mkTransaction None)
  /\ fst (Client_transaction w) = Ret (next_tx w).
Proof. unfold Client_transaction. simpl. by rewrite lookup_insert_eq. Qed.

(** When [acquire] raises, [__aenter__] raises the same, binds nothing and
    takes nothing from the pool. *)
Lemma Transaction_aenter_acquire_failure env w t e w1 :
  ConnectionPool_acquire env w = (Raise e, w1) ->
  Transaction_aenter env t w = (Raise e, w1)
  /\ txs w1 = txs w /\ acquired (trace w1) = acquired (trace w).
Proof.
  intros Hacq. unfold Transaction_aenter. unfold bind at 1. rewrite Hacq.
  apply ConnectionPool_acquire_trace in Hacq as (_ & _ & Htx & _ & Ha).
  simpl in Ha. rewrite app_nil_r in Ha. done.
Qed.

(** An explicit [commit()] that returns, followed by the exit of a scope
    that raised nothing, writes [COMMIT] to the bound connection twice:
    [commit()] leaves no mark on the transaction, and [__aexit__] looks at
    nothing but [exc_type]. *)
Lemma commit_then_exit_sends_COMMIT_twice env w t c conn w1 :
  txs w !! t = Some (mkTransaction (Some c)) ->
  heap w !! c = Some conn -> link_state conn = Connected ->
  Transaction_commit env t w = (Ret tt, w1) ->
  sent_on c (trace (snd (Transaction_aexit env t None w1)))
  = sent_on c (trace w) ++ ["COMMIT"; "COMMIT"].
Proof.
  intros Ht Hc Hst Hcommit.
  unfold Transaction_commit in Hcommit. unfold bind at 1 in Hcommit.
  rewrite (tx_conn_lookup _ _ _ Ht) in Hcommit. simpl in Hcommit.
  unfold bind in Hcommit.
  pose proof (Connection_execute_connected_world env _ _ _ "COMMIT" None Hc Hst)
    as Hw.
  destruct (Connection_execute env c "COMMIT" None w) as [[qr|e|] w1'];
    [|done..].
  simpl in Hw. injection Hcommit as <-. subst w1'.
  rewrite (Transaction_aexit_bound env _ t c None) by done.
  pose proof (Connection_execute_connected_world env
                (log (EvSend c "COMMIT" []) w) _ _ "COMMIT" None Hc Hst) as Hw2.
  simpl in Hw2. unfold exit_statement.
  destruct (Connection_execute env c "COMMIT" None _) as [[qr2|e2|] w2];
    simpl in Hw2; subst w2; trace_simpl; rewrite Nat.eqb_refl; simpl;
    by rewrite <- app_assoc.
Qed.

(** ** Connection.close *)

(** C9 (amended): for every connection in any link state, if the
    transport's [wait_closed()] completes (no transport is there to wait for
    when the connection is Unconnected), [close()] completes without
    failure and leaves the connection not Connected, and calling [close()]
    again, [wait_closed()] completing again, also completes without failure
    and leaves it not Connected. *)
Theorem Connection_close_idempotent env w c conn :
  heap w !! c = Some conn ->
  (_streams conn = true -> wait_closed env (now w) = None) ->
  exists w1 conn1,
    Connection_close env c w = (Ret tt, w1)
    /\ heap w1 !! c = Some conn1 /\ link_state conn1 <> Connected
    /\ ((_streams conn = true -> wait_closed env (now w1) = None) ->
        exists w2 conn2,
          Connection_close env c w1 = (Ret tt, w2)
          /\ heap w2 !! c = Some conn2 /\ link_state conn2 <> Connected).
Proof.
  intros Hc Hok.
  assert (Hclose : forall w0 conn0,
            heap w0 !! c = Some conn0 ->
            (_streams conn0 = true -> wait_closed env (now w0) = None) ->
            exists w1,
              Connection_close env c w0 = (Ret tt, w1)
              /\ heap w1 !! c
                 = Some (mkConnection (host conn0) (port conn0) (_streams conn0) false)).
  { intros w0 conn0 H0 Hw. unfold Connection_close. unfold_m. rewrite H0.
    destruct (_streams conn0) eqn:Hs; simpl.
    - rewrite (Hw eq_refl). simpl. rewrite H0. simpl.
      eexists; split; [done|]. simpl. by rewrite lookup_insert_eq, Hs.
    - rewrite H0. simpl. eexists; split; [done|]. simpl.
      by rewrite lookup_insert_eq, Hs. }
  destruct (Hclose w conn Hc Hok) as (w1 & Hrun & Hc1).
  eexists w1, _. repeat split; [done..| |].
  - unfold link_state. simpl. by destruct (_streams conn).
  - intros Hok1. destruct (Hclose w1 _ Hc1 Hok1) as (w2 & Hrun2 & Hc2).
    eexists w2, _. repeat split; [done..|].
    unfold link_state. simpl. by destruct (_streams conn).
Qed.

(** ** One caller alone *)

(** What [ConnectionPool.acquire] does when it is run alone is what one
    task does when it is resumed without interference: the pool it leaves
    and the connection it returns, or the exception it raises, agree. *)
Lemma acquire_is_task_run env w r w' :
  ConnectionPool_acquire env w = (r, w') ->
  match r with
  | Ret c =>
      exists rs, task_run rs Polling (pool w) (next_conn w)
                 = Some (Holding c, pool w')
  | Raise e =>
      exists rs, task_run rs Polling (pool w) (next_conn w)
                 = Some (Failed e, pool w')
  | Blocked => True
  end.
Proof.
  rewrite ConnectionPool_acquire_unfold.
  destruct (_available (pool w)) as [|c q] eqn:Ha.
  - destruct (_lock (pool w)) eqn:Hk; [by intros; simplify_eq|].
    destruct (_size (pool w) <? max_size (pool w)) eqn:Hlt; [|by intros; simplify_eq].
    destruct (_create_connection env _) as [r1 w1] eqn:Hc.
    apply create_connection_pool in Hc as [Hp Hid]. simpl in Hp, Hid.
    destruct r1 as [c|e|]; intros; simplify_eq/=; [| |done].
    + exists [TimedOut; Proceed; Proceed; Proceed]. simpl.
      rewrite Hk. simpl. rewrite Hlt. by rewrite Hp.
    + exists [TimedOut; Proceed; Proceed; ConnectFailed e]. simpl.
      rewrite Hk. simpl. rewrite Hlt. by rewrite Hp.
  - intros; simplify_eq/=. exists [Proceed]. simpl.
    unfold queue_get. by rewrite Ha.
Qed.

(** When [BEGIN TRANSACTION] fails, [__aenter__] raises with the connection
    bound to the transaction and handed back to nobody. *)
Lemma Transaction_aenter_begin_failure env w t c w1 e w2 :
  ConnectionPool_acquire env w = (Ret c, w1) ->
  Connection_execute env c "BEGIN TRANSACTION" None
    (set_txs (<[t := mkTransaction (Some c)]> (txs w1)) w1) = (Raise e, w2) ->
  Transaction_aenter env t w = (Raise e, w2)
  /\ txs w2 !! t = Some (mkTransaction (Some c))
  /\ acquired (trace w2) = acquired (trace w) ++ [c]
  /\ released (trace w2) = released (trace w).
Proof.
  intros Hacq Hex. unfold Transaction_aenter. unfold bind at 1. rewrite Hacq.
  unfold bind at 1, modify. unfold bind at 1. rewrite Hex.
  apply ConnectionPool_acquire_trace in Hacq as (Hrel & _ & _ & _ & Ha).
  apply Connection_execute_trace in Hex as (_ & _ & Htx & Ha2 & Hrel2 & _).
  simpl in *. rewrite Htx, Ha2, Hrel2, Ha, Hrel.
  by rewrite lookup_insert_eq.
Qed.

(** ** The client on concrete runs *)

Example started_one :
  started env_rows 1 1 = (Ret tt, w_one)
  /\ _available (pool w_one) = [0%nat] /\ _size (pool w_one) = 1
  /\ (link_state <$> heap w_one !! 0%nat) = Some Connected.
Proof. vm_compute. done. Qed.

Example query_at_seq_42 :
  sent_on 0 (trace (snd (Client_query_at_seq env_rows "SELECT * FROM t" 42 None w_one)))
  = ["SELECT * FROM t FOR SYSTEM_TIME AS OF @SEQ:42"].
Proof. vm_compute. done. Qed.

Example query_at_time_2024 :
  sent_on 0 (trace (snd (Client_query_at_time env_rows "SELECT * FROM t"
                           (TsStr "2024-01-01T00:00:00") None w_one)))
  = ["SELECT * FROM t FOR SYSTEM_TIME AS OF '2024-01-01T00:00:00'"].
Proof. vm_compute. done. Qed.

(** Two callers of a full pool of one: the second waits until the first
    hands its connection back, and the pool still counts one connection. *)
Example saturated_pool_of_one :
  (live_count <$> sys_run [Spawn; Spawn; Run 0 Proceed; Run 1 TimedOut;
                           Run 1 Proceed; Run 1 Proceed]
                          (Sys_init w_one)) = Some 1
  /\ sys_run [Spawn; Spawn; Run 0 Proceed; Run 1 TimedOut; Run 1 Proceed;
              Run 1 Proceed; Run 1 Proceed] (Sys_init w_one) = None
  /\ (sys_tasks <$> sys_run [Spawn; Spawn; Run 0 Proceed; Run 1 TimedOut;
                             Run 1 Proceed; Run 1 Proceed; Run 0 Proceed;
                             Run 1 Proceed] (Sys_init w_one))
     = Some [Finished; Holding 0].
Proof. vm_compute. done. Qed.

(** C1 as stated fails at [min_size = -2], [max_size = -1]: [initialize]
    completes having created nothing, so the live count is 0, which is
    neither [min_size] nor at most [max_size].  It also fails at a pool of
    exactly one connection when [release] is called with a connection that
    the pool did not create: two connections are then idle. *)
Lemma pool_capacity_unguarded :
  min_size (pool w_negative) <= max_size (pool w_negative)
  /\ ConnectionPool_initialize env_rows w_negative = (Ret tt, w_negative)
  /\ live_count (Sys_init w_negative) = 0
  /\ live_count (Sys_init w_negative) <> min_size (pool w_negative)
  /\ ~ live_count (Sys_init w_negative) <= max_size (pool w_negative)
  /\ max_size (pool w_one) = 1
  /\ (_available <$> (sys_pool <$> sys_run [Stray 7] (Sys_init w_one)))
     = Some [0%nat; 7%nat]
  /\ (live_count <$> sys_run [Stray 7] (Sys_init w_one)) = Some 2.
Proof. vm_compute. repeat split; congruence. Qed.

(** C1 holds of a pool of one to two connections and of the race of two
    callers for them, which ends with both connections checked out. *)
Lemma pool_capacity_invariant_witness :
  0 <= 1 <= 2
  /\ started env_rows 1 2 = (Ret tt, w_one_two)
  /\ forallb paired race = true
  /\ (live_count <$> sys_run race (Sys_init w_one_two)) = Some 2
  /\ live_count (Sys_init w_one_two) = 1
  /\ forall s, sys_run race (Sys_init w_one_two) = Some s -> live_count s <= 2.
Proof.
  split; [lia|]. split; [reflexivity|]. split; [reflexivity|].
  split; [reflexivity|].
  destruct (pool_capacity_invariant env_rows "localhost" 5432 "10.0" 1 2
              w_one_two) as [Hinit Hbound]; [lia | reflexivity |].
  split; [exact Hinit|]. intros s Hs. exact (Hbound race s eq_refl Hs).
Defined.

(** C2 at a pool whose one idle connection reaches a server that rejects
    [BEGIN TRANSACTION]: [__aenter__] raises, the connection was taken from
    the pool and never released, and the transaction stays bound to it. *)
Lemma Transaction_aenter_begin_failure_leaks :
  _available (pool (snd (Client_transaction w_one_rejecting))) = [0%nat]
  /\ fst (Transaction_aenter env_rejecting 0 (snd (Client_transaction w_one_rejecting)))
     = Raise (QueryError "Query execution failed: syntax error")
  /\ _available (pool (snd (Transaction_aenter env_rejecting 0
                              (snd (Client_transaction w_one_rejecting))))) = []
  /\ acquired (trace (snd (Transaction_aenter env_rejecting 0
                             (snd (Client_transaction w_one_rejecting))))) = [0%nat]
  /\ released (trace (snd (Transaction_aenter env_rejecting 0
                             (snd (Client_transaction w_one_rejecting))))) = []
  /\ txs (snd (Transaction_aenter env_rejecting 0
                 (snd (Client_transaction w_one_rejecting)))) !! 0%nat
     = Some (mkTransaction (Some 0%nat)).
Proof. vm_compute. done. Qed.

(** C3 at the documented usage, where the body calls [commit()] before
    the scope exits: the scope completes, the connection is released once,
    and [COMMIT] was sent twice on it. *)
Lemma documented_usage_commits_twice :
  fst (documented_usage env_rows w_one) = Ret tt
  /\ sent_on 0 (trace w_committed)
     = ["BEGIN TRANSACTION"; "INSERT INTO users VALUES (?, ?)";
        "INSERT INTO users VALUES (?, ?)"; "COMMIT"; "COMMIT"]
  /\ acquired (trace w_committed) = [0%nat]
  /\ released (trace w_committed) = [0%nat].
Proof. vm_compute. done. Qed.

(** C4 holds of a concrete run. *)
Lemma Transaction_aexit_releases_witness :
  txs w_active !! 0%nat = Some (mkTransaction (Some 0%nat))
  /\ Connection_execute env_rows 0 "COMMIT" None w_active
     = (Ret two_rows_result, log (EvSend 0 "COMMIT" []) w_active)
  /\ Ret two_rows_result <> Blocked
  /\ Transaction_aexit env_rows 0 None w_active
     = (Ret tt, after_release 0 (log (EvSend 0 "COMMIT" []) w_active)).
Proof.
  split; [reflexivity|]. split; [reflexivity|]. split; [discriminate|].
  apply (Transaction_aexit_releases env_rows w_active 0 0 None
           (Ret two_rows_result) (log (EvSend 0 "COMMIT" []) w_active));
    [reflexivity | reflexivity | discriminate].
Defined.

(** C5 at a transaction that was committed and whose scope was left:
    [__aexit__] released the connection and did not clear [_conn], so the
    guard does not fire.  [execute] returns a result and writes its request
    to the connection, which is back in the pool; [commit] and [rollback]
    return too. *)
Lemma Transaction_execute_after_commit :
  fst (documented_usage env_rows w_one) = Ret tt
  /\ _available (pool w_committed) = [0%nat]
  /\ Transaction_execute env_rows 0 "SELECT 1" None w_committed
     = (Ret two_rows_result, log (EvSend 0 "SELECT 1" []) w_committed)
  /\ fst (Transaction_commit env_rows 0 w_committed) = Ret tt
  /\ fst (Transaction_rollback env_rows 0 w_committed) = Ret tt.
Proof. vm_compute. done. Qed.

(** The guard fires on a transaction that was made and not entered. *)
Lemma Transaction_not_started_witness :
  txs w_made !! 0%nat = Some (mkTransaction None)
  /\ Transaction_execute env_rows 0 "SELECT 1" None w_made
     = (Raise (QueryError "Transaction not started"), w_made).
Proof.
  split; [reflexivity|].
  apply (Transaction_not_started env_rows w_made 0 "SELECT 1" None). reflexivity.
Defined.

(** C6 on a concrete run: the server rejects the query, [query] raises
    what [execute] raised and connection 0 is back in the pool. *)
Lemma Client_query_releases_witness :
  fst (ConnectionPool_acquire env_rejecting w_one_rejecting) = Ret 0%nat
  /\ fst (Connection_execute env_rejecting 0 "SELECT 1" None
            (snd (ConnectionPool_acquire env_rejecting w_one_rejecting)))
     = Raise (QueryError "Query execution failed: syntax error")
  /\ fst (Client_query env_rejecting "SELECT 1" None None w_one_rejecting)
     = Raise (QueryError "Query execution failed: syntax error")
  /\ acquired (trace (snd (Client_query env_rejecting "SELECT 1" None None
                             w_one_rejecting))) = [0%nat]
  /\ released (trace (snd (Client_query env_rejecting "SELECT 1" None None
                             w_one_rejecting))) = [0%nat]
  /\ _available (pool (snd (Client_query env_rejecting "SELECT 1" None None
                              w_one_rejecting))) = [0%nat].
Proof.
  split; [reflexivity|]. split; [reflexivity|].
  destruct (proj1 (Client_query_releases env_rejecting "SELECT 1" None None
                     w_one_rejecting)
              0%nat (snd (ConnectionPool_acquire env_rejecting w_one_rejecting))
              (Raise (QueryError "Query execution failed: syntax error"))
              (snd (Connection_execute env_rejecting 0 "SELECT 1" None
                      (snd (ConnectionPool_acquire env_rejecting w_one_rejecting))))
              eq_refl eq_refl)
    as (Hq & Ha & Hr & _); [discriminate|].
  rewrite Hq. cbn [fst snd]. rewrite Ha, Hr.
  split; [reflexivity|]. split; [reflexivity|]. split; reflexivity.
Defined.

(** C8 holds of a concrete run. *)
Lemma Connection_execute_failures_witness :
  heap w_one_rejecting !! 0%nat = Some (mkConnection "localhost" 5432 true true)
  /\ link_state (mkConnection "localhost" 5432 true true) = Connected
  /\ fst (Connection_execute env_rejecting 0 "SELECT 1" None w_one_rejecting)
     = Raise (QueryError "Query execution failed: syntax error").
Proof.
  split; [reflexivity|]. split; [reflexivity|].
  destruct (Connection_execute_failures env_rejecting w_one_rejecting 0
              (mkConnection "localhost" 5432 true true) "SELECT 1" None
              eq_refl eq_refl) as [Herr _].
  destruct (Herr [("type", JStr "error"); ("message", JStr "syntax error")]
              eq_refl eq_refl) as [_ Hmsg].
  exact (Hmsg "syntax error" eq_refl).
Defined.

(** C9 as stated fails at a Connected connection whose transport reports
    a reset link when closed: [close()] raises and the connection is still
    flagged connected. *)
Lemma Connection_close_raises :
  (link_state <$> heap w_one_reset !! 0%nat) = Some Connected
  /\ Connection_close env_reset 0 w_one_reset
     = (Raise (PyError "Connection reset by peer"), log (EvClose 0) w_one_reset)
  /\ (link_state <$> heap (log (EvClose 0) w_one_reset) !! 0%nat) = Some Connected.
Proof. vm_compute. done. Qed.

(** C9 holds of a concrete run. *)
Lemma Connection_close_idempotent_witness :
  heap w_one !! 0%nat = Some (mkConnection "localhost" 5432 true true)
  /\ (_streams (mkConnection "localhost" 5432 true true) = true ->
      wait_closed env_rows (now w_one) = None)
  /\ exists w1 conn1,
       Connection_close env_rows 0 w_one = (Ret tt, w1)
       /\ heap w1 !! 0%nat = Some conn1 /\ link_state conn1 <> Connected.
Proof.
  split; [reflexivity|]. split; [reflexivity|].
  destruct (Connection_close_idempotent env_rows w_one 0
              (mkConnection "localhost" 5432 true true) eq_refl (fun _ => eq_refl))
    as (w1 & conn1 & H1 & H2 & H3 & _).
  exists w1, conn1. auto.
Defined.

(** C10 holds of a concrete run. *)
Lemma QueryResult_row_count_witness :
  Connection_execute env_rows 0 "SELECT 1" None w_one
  = (Ret two_rows_result, log (EvSend 0 "SELECT 1" []) w_one)
  /\ row_count two_rows_result = Z.of_nat (length (rows two_rows_result))
  /\ qr_len two_rows_result = Z.of_nat (length (rows two_rows_result)).
Proof.
  split; [reflexivity|].
  destruct (QueryResult_row_count env_rows w_one 0 "SELECT 1" None
              two_rows_result (log (EvSend 0 "SELECT 1" []) w_one) eq_refl)
    as (H1 & H2 & _).
  auto.
Defined.

(** ** The pool run by one caller *)

(** [_create_connection], outcome by outcome of the connect. *)
Lemma create_connection_eq env w :
  _create_connection env w =
  let c := next_conn w in
  let conn := mkConnection (pool_host (pool w)) (pool_port (pool w)) false false in
  let w1 := log (EvCreate c)
              (mkWorld (<[c := conn]> (heap w)) (S c) (pool w) (txs w)
                       (next_tx w) (trace w)) in
  match connect_outcome env (now w1) with
  | ConnectOk =>
      (Ret c,
       set_pool (size_incr (pool w))
         (set_heap (<[c := mkConnection (pool_host (pool w)) (pool_port (pool w))
                                        true true]> (heap w1)) w1))
  | ConnectTimeout =>
      (Raise (TimeoutError ("Connection timeout after " +:+ timeout (pool w)
                            +:+ "s")), w1)
  | ConnectFault e =>
      (Raise (ConnectionError
                ("Failed to connect to " +:+ pool_host (pool w) +:+ ":" +:+
                 py_str_int (pool_port (pool w)) +:+ ": " +:+ e)), w1)
  end.
Proof.
  unfold _create_connection, Connection_connect, Connection_init. unfold_m. simpl.
  rewrite lookup_insert_eq. simpl.
  by destruct (connect_outcome env _).
Qed.

(** [Connection.close] returns or raises, and touches nothing but the
    flag of its connection and the trace. *)
Lemma Connection_close_frame env c w r w' :
  Connection_close env c w = (r, w') ->
  r <> Blocked
  /\ pool w' = pool w /\ txs w' = txs w /\ next_conn w' = next_conn w
  /\ acquired (trace w') = acquired (trace w)
  /\ released (trace w') = released (trace w)
  /\ (forall c', sent_on c' (trace w') = sent_on c' (trace w))
  /\ (forall c', c' <> c -> heap w' !! c' = heap w !! c')
  /\ (forall conn, heap w !! c = Some conn ->
        heap w' !! c = Some conn
        \/ heap w' !! c = Some (mkConnection (host conn) (port conn)
                                             (_streams conn) false)).
Proof.
  unfold Connection_close. unfold_m. intros H.
  destruct (heap w !! c) as [conn|] eqn:Hc; simplify_eq/=.
  2: { repeat split; try done. }
  destruct (_streams conn) eqn:Hs; simpl in H.
  - destruct (wait_closed env (now w)) as [e|]; simpl in H.
    + simplify_eq/=. repeat split; try done; intros; trace_simpl; auto.
      left. congruence.
    + rewrite Hc in H. simplify_eq/=.
      repeat split; try done; intros; trace_simpl; auto.
      * by rewrite lookup_insert_ne.
      * simplify_eq. right. by rewrite lookup_insert_eq.
  - rewrite Hc in H. simplify_eq/=.
    repeat split; try done; intros; auto.
    + by rewrite lookup_insert_ne.
    + simplify_eq. right. by rewrite lookup_insert_eq.
Qed.

(** When the transport closes cleanly, [close()] leaves its connection not
    connected. *)
Lemma Connection_close_clean env c w conn :
  (forall t, wait_closed env t = None) ->
  heap w !! c = Some conn ->
  heap (snd (Connection_close env c w)) !! c
  = Some (mkConnection (host conn) (port conn) (_streams conn) false).
Proof.
  intros Hok Hc. unfold Connection_close. unfold_m. rewrite Hc.
  destruct (_streams conn) eqn:Hs; simpl; rewrite ?Hok; simpl; rewrite Hc; simpl;
    by rewrite lookup_insert_eq, Hs.
Qed.

(** One turn of the [while] of [ConnectionPool.close]: the oldest idle
    connection leaves the queue and is closed, and nothing is raised. *)
Lemma close_turn_eq env w c q :
  _available (pool w) = c :: q ->
  try_except (c <- available_get block ;; Connection_close env c)
             (fun _ => ret tt) w
  = (Ret tt, snd (Connection_close env c (set_pool (set_available q (pool w)) w))).
Proof.
  intros Ha. unfold available_get, queue_get. unfold_m. rewrite Ha.
  destruct (Connection_close env c _) as [r w1] eqn:Hc.
  apply Connection_close_frame in Hc as (Hr & _). by destruct r as [[]|e|].
Qed.

Lemma close_loop_S env k w :
  close_loop env (S k) w =
  match _available (pool w) with
  | [] => (Ret tt, w)
  | _ :: _ =>
      match try_except (c <- available_get block ;; Connection_close env c)
                       (fun _ => ret tt) w with
      | (Ret _, w1) => close_loop env k w1
      | (Raise e, w1) => (Raise e, w1)
      | (Blocked, w1) => (Blocked, w1)
      end
  end.
Proof.
  simpl. unfold bind at 1, get_world. by destruct (_available (pool w)).
Qed.

(** The loop of [ConnectionPool.close], run for at least as many turns as
    there are idle connections. *)
Lemma close_loop_spec env n : forall w,
  (length (_available (pool w)) <= n)%nat ->
  exists w',
    close_loop env n w = (Ret tt, w')
    /\ _available (pool w') = []
    /\ _size (pool w') = _size (pool w)
    /\ max_size (pool w') = max_size (pool w)
    /\ _lock (pool w') = _lock (pool w)
    /\ next_conn w' = next_conn w
    /\ acquired (trace w') = acquired (trace w)
    /\ released (trace w') = released (trace w)
    /\ (forall c, sent_on c (trace w') = sent_on c (trace w))
    /\ (forall c, c ∉ _available (pool w) -> heap w' !! c = heap w !! c)
    /\ ((forall t, wait_closed env t = None) ->
        forall c conn, c ∈ _available (pool w) -> heap w !! c = Some conn ->
          heap w' !! c = Some (mkConnection (host conn) (port conn)
                                            (_streams conn) false)).
Proof.
  induction n as [|n IH]; intros w Hlen.
  - destruct (_available (pool w)) as [|c q] eqn:Ha; [|simpl in Hlen; lia].
    exists w. simpl. unfold ret. rewrite Ha. repeat split; try done.
    intros _ c conn Hin. by apply elem_of_nil in Hin.
  - rewrite close_loop_S.
    destruct (_available (pool w)) as [|c q] eqn:Ha.
    { exists w. repeat split; try done.
      intros _ c conn Hin. by apply elem_of_nil in Hin. }
    rewrite (close_turn_eq env w c q Ha).
    set (w0 := set_pool (set_available q (pool w)) w).
    destruct (Connection_close env c w0) as [r w1] eqn:Hc. simpl.
    pose proof (Connection_close_frame _ _ _ _ _ Hc)
      as (_ & Hp & _ & Hn & Hacq & Hrel & Hsent & Hother & Hself).
    destruct (IH w1) as (w' & Hrun & Hav & Hsz & Hmx & Hlk & Hnx & Ha' & Hr'
                         & Hs' & Hkeep & Hclean).
    { rewrite Hp. simpl. simpl in Hlen. lia. }
    exists w'. rewrite Hp in *. simpl in *.
    repeat split; try congruence.
    + intros c' Hnin. apply not_elem_of_cons in Hnin as [Hne Hnin].
      rewrite Hkeep by done. by rewrite Hother.
    + intros Hok c' conn Hin Hc'.
      destruct (decide (c' ∈ q)) as [Hq|Hq].
      * destruct (decide (c' = c)) as [->|Hne].
        -- destruct (Hself conn Hc') as [H1|H1];
             by rewrite (Hclean Hok _ _ Hq H1).
        -- apply (Hclean Hok _ _ Hq). by rewrite Hother.
      * apply elem_of_cons in Hin as [->|Hin]; [|done].
        rewrite Hkeep by done.
        pose proof (Connection_close_clean env c w0 conn Hok Hc') as Hcl.
        by rewrite Hc in Hcl.
Qed.


(** X2: when the transport closes cleanly, [ConnectionPool.close] leaves
    every connection that was idle not Connected. *)
Theorem ConnectionPool_close_closes_idle env w c conn :
  (forall t, wait_closed env t = None) ->
  c ∈ _available (pool w) -> heap w !! c = Some conn ->
  exists conn',
    heap (snd (ConnectionPool_close env w)) !! c = Some conn'
    /\ link_state conn' <> Connected
    /\ host conn' = host conn /\ port conn' = port conn.
Proof.
  intros Hok Hin Hc.
  unfold ConnectionPool_close. unfold bind at 1, get_world.
  destruct (close_loop_spec env (length (_available (pool w))) w)
    as (w' & Hrun & _ & _ & _ & _ & _ & _ & _ & _ & _ & Hclean); [done|].
  rewrite Hrun. simpl. rewrite (Hclean Hok _ _ Hin Hc).
  eexists; repeat split. unfold link_state. simpl. by destruct (_streams conn).
Qed.

Lemma release_all_eq cs : forall w,
  exists w',
    release_all cs w = (Ret tt, w')
    /\ pool w' = set_available (_available (pool w) ++ cs) (pool w)
    /\ heap w' = heap w /\ next_conn w' = next_conn w
    /\ released (trace w') = released (trace w) ++ cs.
Proof.
  induction cs as [|c cs IH]; intros w.
  - exists w. simpl. unfold ret. rewrite !app_nil_r. repeat split.
    by destruct (pool w).
  - simpl. unfold bind, ConnectionPool_release, modify.
    destruct (IH (log (EvRelease c) (set_pool (queue_put c (pool w)) w)))
      as (w' & Hrun & Hp & Hh & Hn & Hr).
    exists w'. rewrite Hrun. simpl in *. rewrite Hp, Hr. trace_simpl.
    rewrite <- !app_assoc. done.
Qed.

Lemma acquire_n_queue env n : forall w,
  (n <= length (_available (pool w)))%nat ->
  exists w',
    acquire_n env n w = (Ret (take n (_available (pool w))), w')
    /\ pool w' = set_available (drop n (_available (pool w))) (pool w)
    /\ heap w' = heap w /\ next_conn w' = next_conn w
    /\ acquired (trace w') = acquired (trace w) ++ take n (_available (pool w)).
Proof.
  induction n as [|n IH]; intros w Hn.
  - exists w. simpl. unfold ret. rewrite app_nil_r. repeat split.
    by destruct (pool w).
  - destruct (_available (pool w)) as [|c q] eqn:Ha; [simpl in Hn; lia|].
    simpl. unfold bind at 1. rewrite ConnectionPool_acquire_unfold, Ha.
    destruct (IH (log (EvAcquire c) (set_pool (set_available q (pool w)) w)))
      as (w' & Hrun & Hp & Hh & Hnx & Hacq); [simpl in *; lia|].
    exists w'. unfold bind, ret. rewrite Hrun. simpl in *.
    rewrite Hp, Hacq. trace_simpl. rewrite <- !app_assoc. done.
Qed.

(** X4: the idle queue is first in, first out.  After any releases, as many
    acquires as there are idle connections return them oldest first, the
    released ones last and in the order of their release, without creating
    a connection; the queue is then empty and [_size] is what it was. *)
Theorem pool_is_fifo env w cs :
  exists w',
    (release_all cs ;; acquire_n env (length (_available (pool w) ++ cs))) w
    = (Ret (_available (pool w) ++ cs), w')
    /\ _available (pool w') = []
    /\ _size (pool w') = _size (pool w)
    /\ next_conn w' = next_conn w /\ heap w' = heap w.
Proof.
  unfold bind. destruct (release_all_eq cs w) as (w1 & Hrel & Hp & Hh & Hn & _).
  rewrite Hrel.
  destruct (acquire_n_queue env (length (_available (pool w) ++ cs)) w1)
    as (w' & Hacq & Hp' & Hh' & Hn' & _).
  { rewrite Hp. simpl. done. }
  rewrite Hp in Hacq, Hp'. simpl in Hacq, Hp'.
  rewrite firstn_all in Hacq. rewrite drop_all in Hp'.
  exists w'. rewrite Hacq, Hp'. simpl. repeat split; congruence.
Qed.

(** X5: [acquire] on an empty queue, below capacity, with the lock free and
    no other caller running meanwhile.  It makes one connection object: if
    the connect succeeds, that new connection is returned Connected and
    counted; if it times out or fails, [acquire] raises [TimeoutError] or
    [ConnectionError], counts nothing and hands out nothing; in every case
    the lock is free again afterwards. *)
Theorem acquire_on_empty_queue env w :
  _available (pool w) = [] -> _lock (pool w) = false ->
  _size (pool w) < max_size (pool w) ->
  exists r w',
    ConnectionPool_acquire env w = (r, w')
    /\ _lock (pool w') = false /\ _available (pool w') = []
    /\ next_conn w' = S (next_conn w)
    /\ match connect_outcome env (S (now w)) with
       | ConnectOk =>
           r = Ret (next_conn w)
           /\ _size (pool w') = _size (pool w) + 1
           /\ heap w' !! next_conn w
              = Some (mkConnection (pool_host (pool w)) (pool_port (pool w))
                                   true true)
           /\ acquired (trace w') = acquired (trace w) ++ [next_conn w]
       | ConnectTimeout =>
           r = Raise (TimeoutError ("Connection timeout after " +:+
                                    timeout (pool w) +:+ "s"))
           /\ _size (pool w') = _size (pool w)
           /\ acquired (trace w') = acquired (trace w)
       | ConnectFault m =>
           r = Raise (ConnectionError
                        ("Failed to connect to " +:+ pool_host (pool w) +:+
                         ":" +:+ py_str_int (pool_port (pool w)) +:+ ": " +:+ m))
           /\ _size (pool w') = _size (pool w)
           /\ acquired (trace w') = acquired (trace w)
       end.
Proof.
  intros Ha Hk Hroom. rewrite ConnectionPool_acquire_unfold, Ha, Hk.
  destruct (_size (pool w) <? max_size (pool w)) eqn:Hlt; [|lia].
  rewrite create_connection_eq. simpl.
  replace (now (log (EvCreate (next_conn w))
             (mkWorld (<[next_conn w := mkConnection (pool_host (pool w))
                            (pool_port (pool w)) false false]> (heap w))
                      (S (next_conn w)) (set_lock true (pool w)) (txs w)
                      (next_tx w) (trace w))))
    with (S (now w)) by (unfold now; simpl; rewrite length_app; simpl; lia).
  destruct (connect_outcome env (S (now w))); simpl;
    eexists _, _; (split; [reflexivity|]); simpl; rewrite ?Ha;
    repeat split; trace_simpl; try done.
  by rewrite lookup_insert_eq.
Qed.

Lemma closed_snoc tr e :
  closed (tr ++ [e]) = closed tr ++ match e with EvClose c => [c] | _ => [] end.
Proof. unfold closed. rewrite omap_app. by destruct e. Qed.

(** The loop of [initialize] while the connects succeed: [n] new
    connection objects, each Connected, queued in the order they were
    made. *)
Lemma initialize_loop_ok env n : forall w,
  (forall j, (j < n)%nat -> connect_outcome env (now w + 1 + j) = ConnectOk) ->
  exists w',
    initialize_loop env n w = (Ret tt, w')
    /\ _available (pool w') = _available (pool w) ++ seq (next_conn w) n
    /\ _size (pool w') = _size (pool w) + Z.of_nat n
    /\ next_conn w' = (next_conn w + n)%nat
    /\ now w' = (now w + n)%nat
    /\ pool_host (pool w') = pool_host (pool w)
    /\ pool_port (pool w') = pool_port (pool w)
    /\ timeout (pool w') = timeout (pool w)
    /\ closed (trace w') = closed (trace w)
    /\ (forall c, (c < next_conn w)%nat -> heap w' !! c = heap w !! c)
    /\ (forall c, c ∈ seq (next_conn w) n ->
          heap w' !! c = Some (mkConnection (pool_host (pool w))
                                            (pool_port (pool w)) true true)).
Proof.
  induction n as [|n IH]; intros w Hok.
  - exists w. simpl. unfold ret. rewrite app_nil_r.
    repeat split; try done; try lia.
    intros c Hc. by apply elem_of_nil in Hc.
  - simpl. unfold bind at 1. rewrite create_connection_eq. simpl.
    replace (now (log (EvCreate (next_conn w))
               (mkWorld (<[next_conn w := mkConnection (pool_host (pool w))
                              (pool_port (pool w)) false false]> (heap w))
                        (S (next_conn w)) (pool w) (txs w)
                        (next_tx w) (trace w))))
      with (now w + 1 + 0)%nat
      by (unfold now; simpl; rewrite length_app; simpl; lia).
    rewrite (Hok 0%nat) by lia. unfold bind at 1, modify.
    match goal with |- context [initialize_loop env n ?w1] =>
      destruct (IH w1) as (w' & Hrun & Hav & Hsz & Hnx & Hnow & Hh & Hp & Ht
                           & Hcl & Hkeep & Hnew) end.
    { intros j Hj. unfold now. simpl. rewrite length_app. simpl.
      replace (length (trace w) + 1 + 1 + j)%nat with (now w + 1 + S j)%nat
        by (unfold now; lia).
      apply Hok. lia. }
    exists w'. rewrite Hrun. unfold now in *. simpl in *.
    rewrite length_app in Hnow. simpl in Hnow. rewrite closed_snoc in Hcl.
    simpl in Hcl. rewrite app_nil_r in Hcl.
    repeat split; try congruence; try lia.
    + rewrite Hav. by rewrite <- app_assoc.
    + intros c Hc. rewrite Hkeep by lia.
      rewrite !lookup_insert_ne by lia. done.
    + intros c Hc. apply elem_of_cons in Hc as [->|Hc].
      * rewrite Hkeep by lia. by rewrite lookup_insert_eq.
      * by apply Hnew.
Qed.

(** X6: [initialize] with every connect succeeding makes exactly
    [max(min_size, 0)] new connection objects, each Connected to the pool's
    host and port, idle in the order they were made, and counts them; with
    [min_size <= 0] it does nothing at all. *)
Theorem initialize_connects_min_size env w :
  (forall j, (j < Z.to_nat (min_size (pool w)))%nat ->
             connect_outcome env (now w + 1 + j) = ConnectOk) ->
  exists w',
    ConnectionPool_initialize env w = (Ret tt, w')
    /\ _available (pool w')
       = _available (pool w) ++ seq (next_conn w) (Z.to_nat (min_size (pool w)))
    /\ _size (pool w') = _size (pool w) + Z.max 0 (min_size (pool w))
    /\ (forall c, c ∈ seq (next_conn w) (Z.to_nat (min_size (pool w))) ->
          heap w' !! c = Some (mkConnection (pool_host (pool w))
                                            (pool_port (pool w)) true true))
    /\ (min_size (pool w) <= 0 -> w' = w).
Proof.
  intros Hok. unfold ConnectionPool_initialize. unfold bind at 1, get_world.
  destruct (initialize_loop_ok env _ w Hok)
    as (w' & Hrun & Hav & Hsz & _ & _ & _ & _ & _ & _ & _ & Hnew).
  exists w'. repeat split; try done; [lia|].
  intros Hle. replace (Z.to_nat (min_size (pool w))) with 0%nat in Hrun by lia.
  simpl in Hrun. unfold ret in Hrun. congruence.
Qed.

(** X7: when connect number [k+1] of [initialize] fails, [initialize] raises
    what that connect raised ([TimeoutError] for a time-out,
    [ConnectionError] otherwise) and stops: the [k] connections made before
    stay Connected, idle and counted, and none of them is closed. *)
Theorem initialize_partial_failure env w k :
  (k < Z.to_nat (min_size (pool w)))%nat ->
  (forall j, (j < k)%nat -> connect_outcome env (now w + 1 + j) = ConnectOk) ->
  connect_outcome env (now w + 1 + k) <> ConnectOk ->
  exists e w',
    ConnectionPool_initialize env w = (Raise e, w')
    /\ match connect_outcome env (now w + 1 + k) with
       | ConnectOk => False
       | ConnectTimeout =>
           e = TimeoutError ("Connection timeout after " +:+ timeout (pool w)
                             +:+ "s")
       | ConnectFault m =>
           e = ConnectionError
                 ("Failed to connect to " +:+ pool_host (pool w) +:+ ":" +:+
                  py_str_int (pool_port (pool w)) +:+ ": " +:+ m)
       end
    /\ _size (pool w') = _size (pool w) + Z.of_nat k
    /\ _available (pool w') = _available (pool w) ++ seq (next_conn w) k
    /\ (forall c, c ∈ seq (next_conn w) k ->
          exists conn, heap w' !! c = Some conn /\ link_state conn = Connected)
    /\ closed (trace w') = closed (trace w).
Proof.
  intros Hk Hok Hfail. unfold ConnectionPool_initialize.
  unfold bind at 1, get_world.
  destruct (Z.to_nat (min_size (pool w))) as [|n] eqn:Hn; [lia|].
  replace (S n) with (k + S (n - k))%nat by lia.
  assert (Hsplit : forall a b w0,
            initialize_loop env (a + b) w0
            = match initialize_loop env a w0 with
              | (Ret _, w1) => initialize_loop env b w1
              | (Raise e, w1) => (Raise e, w1)
              | (Blocked, w1) => (Blocked, w1)
              end).
  { induction a as [|a IHa]; intros b w0; [done|].
    simpl. unfold bind, modify.
    destruct (_create_connection env w0) as [[c|e|] w1]; [|done..].
    apply IHa. }
  rewrite Hsplit.
  destruct (initialize_loop_ok env k w Hok)
    as (w1 & Hrun & Hav & Hsz & Hnx & Hnow & Hh & Hp & Ht & Hcl & Hkeep & Hnew).
  rewrite Hrun. simpl. unfold bind at 1. rewrite create_connection_eq. simpl.
  replace (now (log (EvCreate (next_conn w1))
             (mkWorld (<[next_conn w1 := mkConnection (pool_host (pool w1))
                            (pool_port (pool w1)) false false]> (heap w1))
                      (S (next_conn w1)) (pool w1) (txs w1)
                      (next_tx w1) (trace w1))))
    with (now w + 1 + k)%nat
    by (unfold now in *; simpl; rewrite length_app; simpl; lia).
  destruct (connect_outcome env (now w + 1 + k)) as [| |m] eqn:Hout; [done| |];
    eexists _, _; (split; [reflexivity|]); simpl;
    rewrite ?Hh, ?Hp, ?Ht, closed_snoc; simpl; rewrite app_nil_r;
    (repeat split; try done);
    intros c Hc; rewrite lookup_insert_ne
      by (apply elem_of_seq in Hc; lia);
    rewrite (Hnew c Hc); eexists; split; done.
Qed.

(** ** Concurrent callers: who holds what *)

Lemma held_app l1 l2 : held (l1 ++ l2) = held l1 ++ held l2.
Proof. unfold held. apply omap_app. Qed.

(** Replacing caller [i] changes what is held by what caller [i] holds. *)
Lemma held_insert tasks i pc :
  tasks !! i = Some pc ->
  exists rest,
    held tasks ≡ₚ held [pc] ++ rest
    /\ forall pc', held (<[i := pc']> tasks) ≡ₚ held [pc'] ++ rest.
Proof.
  intros Hi. exists (held (take i tasks) ++ held (drop (S i) tasks)).
  pose proof (lookup_lt_Some _ _ _ Hi) as Hlt.
  split.
  - rewrite <- (take_drop_middle _ _ _ Hi) at 1.
    rewrite held_app. change (pc :: drop (S i) tasks) with ([pc] ++ drop (S i) tasks).
    rewrite held_app. by rewrite Permutation_app_swap_app.
  - intros pc'. rewrite insert_take_drop by done.
    rewrite held_app. change (pc' :: drop (S i) tasks) with ([pc'] ++ drop (S i) tasks).
    rewrite held_app. by rewrite Permutation_app_swap_app.
Qed.

Lemma elem_of_held tasks c :
  c ∈ held tasks <-> exists i, tasks !! i = Some (Holding c).
Proof.
  unfold held. rewrite list_elem_of_omap. split.
  - intros (pc & Hin & Hpc). destruct pc; simplify_eq.
    by apply list_elem_of_lookup_1 in Hin.
  - intros (i & Hi). exists (Holding c). split; [|done].
    by eapply list_elem_of_lookup_2.
Qed.

(** A step of one caller keeps the connections apart. *)
Lemma task_step_distinct r pc p pc' p' tasks i nxt :
  tasks !! i = Some pc ->
  task_step r pc p nxt = Some (pc', p') ->
  distinct (mkSys p tasks nxt) ->
  distinct (mkSys p' (<[i := pc']> tasks) (S nxt)).
Proof.
  intros Hi Hstep [Hnd Hlt]. unfold distinct in *; simpl in *.
  destruct (held_insert tasks i pc Hi) as (rest & Hold & Hnew).
  specialize (Hnew pc'). rewrite Hold in Hnd.
  assert (Hlt' : forall c, c ∈ held [pc] ++ rest ++ _available p -> (c < nxt)%nat).
  { intros c Hc. apply Hlt. rewrite Hold. by rewrite <- app_assoc. }
  clear Hlt Hold. rewrite <- app_assoc in Hnd.
  cut (NoDup (held [pc'] ++ rest ++ _available p')
       /\ forall c, c ∈ held [pc'] ++ rest ++ _available p' -> (c < S nxt)%nat).
  { intros [H1 H2]. split.
    - by rewrite Hnew, <- app_assoc.
    - intros c Hc. apply H2. rewrite Hnew, <- app_assoc in Hc. exact Hc. }
  clear Hnew.
  assert (Hweak : forall l : list nat,
            (forall c, c ∈ l -> (c < nxt)%nat) -> forall c, c ∈ l -> (c < S nxt)%nat).
  { intros l Hl c Hc. specialize (Hl c Hc). lia. }
  destruct pc, r; simpl in Hstep; repeat case_match; simplify_eq/=;
    try match goal with H : queue_get _ = Some _ |- _ =>
          apply queue_get_Some in H as (Ha & _); rewrite Ha in *
        end.
  - (* Polling takes the head of the queue *)
    split.
    + by rewrite Permutation_middle.
    + intros c Hc. apply (Hweak _ Hlt'). rewrite <- Permutation_middle. exact Hc.
  - split; [done | by apply Hweak].
  - split; [done | by apply Hweak].
  - split; [done | by apply Hweak].
  - split; [done | by apply Hweak].
  - (* Connecting makes a connection with a new name *)
    split.
    + apply NoDup_cons. split; [|done].
      intros Hin. specialize (Hlt' _ Hin). lia.
    + intros c [->|Hc]%elem_of_cons; [lia|]. by apply (Hweak _ Hlt').
  - split; [done | by apply Hweak].
  - (* Waiting takes the head of the queue *)
    split.
    + by rewrite Permutation_middle.
    + intros c Hc. apply (Hweak _ Hlt'). rewrite <- Permutation_middle. exact Hc.
  - (* Holding hands its connection back *)
    unfold queue_put. simpl. split.
    + rewrite app_assoc. by rewrite <- Permutation_cons_append.
    + intros c' Hc. apply (Hweak _ Hlt').
      rewrite app_assoc in Hc. rewrite <- Permutation_cons_append in Hc. exact Hc.
Qed.

Lemma sys_run_distinct acts : forall s s',
  forallb paired acts = true ->
  sys_run acts s = Some s' -> distinct s -> distinct s'.
Proof.
  induction acts as [|a acts IH]; intros s s' Hp Hrun Hd; simpl in Hrun.
  - by simplify_eq.
  - simpl in Hp. apply andb_prop in Hp as [Ha Hp].
    destruct (sys_step a s) as [s1|] eqn:Hs; [|done].
    apply (IH _ _ Hp Hrun). clear IH Hrun.
    destruct a as [|i r|c]; simpl in Hs; [| |done].
    + simplify_eq. destruct Hd as [Hnd Hlt]. unfold distinct; simpl.
      rewrite held_app. simpl. rewrite app_nil_r. done.
    + destruct (sys_tasks s !! i) as [pc|] eqn:Hi; [|done].
      destruct (task_step r pc (sys_pool s) (sys_next s)) as [[pc' p']|] eqn:Hst;
        [|done].
      simplify_eq. destruct s as [p tasks nxt]; simpl in *.
      eapply task_step_distinct; eauto.
Qed.

(** The queue that a completed [initialize] leaves on a new pool. *)
Lemma initialize_loop_Ret_queue env n : forall w w',
  initialize_loop env n w = (Ret tt, w') ->
  _available (pool w') = _available (pool w) ++ seq (next_conn w) n
  /\ next_conn w' = (next_conn w + n)%nat.
Proof.
  induction n as [|n IH]; intros w w' Hrun; simpl in Hrun.
  - unfold ret in Hrun. simplify_eq. rewrite app_nil_r. split; [done|lia].
  - unfold bind at 1 in Hrun. rewrite create_connection_eq in Hrun.
    simpl in Hrun. destruct (connect_outcome env _); [|done..].
    unfold bind at 1, modify in Hrun.
    apply IH in Hrun as [Hav Hnx]. simpl in *.
    rewrite Hav, Hnx. rewrite <- app_assoc. split; [done|lia].
Qed.

(** X8: no double checkout.  From a completed [initialize] on a new pool,
    after every interleaving in which each [release] is a holder's, no two
    callers hold the same connection, no caller holds a connection that is
    also idle, and no connection is idle twice. *)
Theorem no_double_checkout env h p tmo mn mx w acts s :
  ConnectionPool_initialize env (World_init (ConnectionPool_init h p mn mx tmo))
    = (Ret tt, w) ->
  forallb paired acts = true ->
  sys_run acts (Sys_init w) = Some s ->
  (forall i j c, sys_tasks s !! i = Some (Holding c) ->
                 sys_tasks s !! j = Some (Holding c) -> i = j)
  /\ (forall i c, sys_tasks s !! i = Some (Holding c) ->
                  c ∉ _available (sys_pool s))
  /\ NoDup (_available (sys_pool s)).
Proof.
  intros Hinit Hp Hrun.
  unfold ConnectionPool_initialize in Hinit. unfold bind at 1, get_world in Hinit.
  apply initialize_loop_Ret_queue in Hinit as [Hav Hnx]. simpl in Hav, Hnx.
  assert (Hd : distinct (Sys_init w)).
  { unfold distinct, Sys_init. simpl. rewrite Hav, Hnx. split.
    - apply NoDup_seq.
    - intros c Hc. apply elem_of_seq in Hc. lia. }
  destruct (sys_run_distinct _ _ _ Hp Hrun Hd) as [Hnd _].
  apply NoDup_app in Hnd as (Hheld & Hsep & Hidle).
  repeat split; [| |done].
  - intros i j c Hi Hj. destruct (decide (i = j)) as [|Hne]; [done|]. exfalso.
    destruct (held_insert _ _ _ Hi) as (rest & Hold & Hnew).
    specialize (Hnew Finished). simpl in Hold, Hnew.
    rewrite Hold in Hheld. apply NoDup_cons in Hheld as [Hnin _].
    apply Hnin. rewrite <- Hnew. apply elem_of_held. exists j.
    by rewrite list_lookup_insert_ne.
  - intros i c Hi. apply Hsep. apply elem_of_held. eauto.
Qed.

(** ** Concurrent callers: the lock and the capacity *)

Lemma sum_list_with_pos {A} (f : A -> nat) (l : list A) :
  (0 < sum_list_with f l)%nat -> exists i a, l !! i = Some a /\ (0 < f a)%nat.
Proof.
  induction l as [|x l IH]; simpl; [lia|]. intros Hpos.
  destruct (f x) eqn:Hx.
  - destruct IH as (i & a & Hi & Ha); [lia|]. by exists (S i), a.
  - exists 0%nat, x. split; [done|lia].
Qed.

(** X9: the lock of the pool.  From a completed [initialize], after every
    interleaving (stray releases included) at most one caller is between
    taking the lock and leaving [_create_connection]; the lock is held
    exactly when there is such a caller, so a connect that fails never
    leaves the lock held. *)
Theorem lock_is_exclusive env h p tmo mn mx w acts s :
  0 <= mn <= mx ->
  ConnectionPool_initialize env (World_init (ConnectionPool_init h p mn mx tmo))
    = (Ret tt, w) ->
  sys_run acts (Sys_init w) = Some s ->
  (forall i j pc pc', sys_tasks s !! i = Some pc -> sys_tasks s !! j = Some pc' ->
                      in_lock pc = 1%nat -> in_lock pc' = 1%nat -> i = j)
  /\ (_lock (sys_pool s) = true <->
      exists i pc, sys_tasks s !! i = Some pc /\ in_lock pc = 1%nat).
Proof.
  intros Hm Hinit Hrun.
  destruct (initialize_establishes _ _ _ _ _ _ _ Hm Hinit) as (_ & _ & Hinv & _).
  destruct (sys_run_lock_inv _ _ _ Hrun Hinv) as [(_ & Hsum & _) _].
  split.
  - intros i j pc pc' Hi Hj Hpc Hpc'.
    destruct (decide (i = j)) as [|Hne]; [done|]. exfalso.
    pose proof (sum_list_with_insert in_lock _ i pc Finished Hi) as Hins.
    assert (Hj' : <[i := Finished]> (sys_tasks s) !! j = Some pc')
      by by rewrite list_lookup_insert_ne.
    apply (sum_list_with_lookup in_lock) in Hj'. simpl in Hins.
    destruct (_lock (sys_pool s)); lia.
  - split.
    + intros Hk. rewrite Hk in Hsum.
      destruct (sum_list_with_pos in_lock (sys_tasks s)) as (i & pc & Hi & Hpos);
        [lia|].
      exists i, pc. split; [done|]. destruct pc; simpl in *; lia.
    + intros (i & pc & Hi & Hpc).
      apply (sum_list_with_lookup in_lock) in Hi.
      destruct (_lock (sys_pool s)); [done|lia].
Qed.

(** X10: saturation.  From a completed [initialize], in every state reached
    with [_size] equal to [max_size], a caller that did not hold a
    connection and holds one after its step took the head of the idle
    queue: nothing was created and [_size] did not move.  So with the
    queue empty no caller gets a connection until one is released. *)
Theorem saturated_pool_creates_nothing env h p tmo mn mx w acts s i r s' pc c :
  0 <= mn <= mx ->
  ConnectionPool_initialize env (World_init (ConnectionPool_init h p mn mx tmo))
    = (Ret tt, w) ->
  sys_run acts (Sys_init w) = Some s ->
  _size (sys_pool s) = max_size (sys_pool s) ->
  sys_tasks s !! i = Some pc -> holding pc = 0%nat ->
  sys_step (Run i r) s = Some s' ->
  sys_tasks s' !! i = Some (Holding c) ->
  _available (sys_pool s) = c :: _available (sys_pool s')
  /\ _size (sys_pool s') = _size (sys_pool s).
Proof.
  intros Hm Hinit Hrun Hfull Hi Hpc Hstep Hi'.
  destruct (initialize_establishes _ _ _ _ _ _ _ Hm Hinit) as (_ & _ & Hinv & _).
  destruct (sys_run_lock_inv _ _ _ Hrun Hinv) as [(_ & _ & Hroom) _].
  simpl in Hstep. rewrite Hi in Hstep.
  destruct (task_step r pc (sys_pool s) (sys_next s)) as [[pc' p']|] eqn:Hst;
    [|done].
  simplify_eq/=.
  rewrite list_lookup_insert_eq in Hi' by (by eapply lookup_lt_Some).
  simplify_eq.
  destruct pc, r; simpl in Hst; repeat case_match; simplify_eq/=.
  - match goal with H : queue_get _ = Some _ |- _ =>
      apply queue_get_Some in H as (Ha & Hs & _) end. done.
  - specialize (Hroom _ Hi). lia.
  - match goal with H : queue_get _ = Some _ |- _ =>
      apply queue_get_Some in H as (Ha & Hs & _) end. done.
Qed.

(** At capacity and with nobody connecting, a step of one caller creates
    nothing and hands out only what was held or idle. *)
Lemma task_step_saturated r pc p pc' p' tasks i nxt :
  tasks !! i = Some pc ->
  task_step r pc p nxt = Some (pc', p') ->
  max_size p <= _size p ->
  (forall j, tasks !! j <> Some Connecting) ->
  _size p' = _size p /\ max_size p' = max_size p
  /\ (forall j, <[i := pc']> tasks !! j <> Some Connecting)
  /\ (forall c, c ∈ held (<[i := pc']> tasks) ++ _available p' ->
                c ∈ held tasks ++ _available p).
Proof.
  intros Hi Hstep Hfull Hnc.
  destruct (held_insert tasks i pc Hi) as (rest & Hold & Hnew).
  specialize (Hnew pc').
  assert (Hpc : pc <> Connecting) by (intros ->; by apply (Hnc i)).
  assert (Hins : pc' <> Connecting ->
                 forall j, <[i := pc']> tasks !! j <> Some Connecting).
  { intros Hpc' j. destruct (decide (i = j)) as [<-|Hne].
    - rewrite list_lookup_insert_eq by (by eapply lookup_lt_Some). congruence.
    - rewrite list_lookup_insert_ne by done. apply Hnc. }
  cut (_size p' = _size p /\ max_size p' = max_size p /\ pc' <> Connecting
       /\ forall c, c ∈ held [pc'] ++ rest ++ _available p' ->
                    c ∈ held [pc] ++ rest ++ _available p).
  { intros (H1 & H2 & H3 & H4). repeat split; [done|done|by apply Hins|].
    intros c Hc. rewrite Hold, <- app_assoc. apply H4.
    rewrite Hnew, <- app_assoc in Hc. exact Hc. }
  clear Hnew Hold Hins.
  destruct pc, r; simpl in Hstep; repeat case_match; simplify_eq/=;
    try match goal with H : queue_get _ = Some _ |- _ =>
          apply queue_get_Some in H as (Ha & Hsz & Hmx & _); rewrite Ha
        end; simpl; repeat split; try done; try lia.
  all: intros c0 Hc.
  - by rewrite <- Permutation_middle.
  - by rewrite <- Permutation_middle.
  - unfold queue_put in Hc. simpl in Hc.
    rewrite app_assoc, <- Permutation_cons_append in Hc.
    by rewrite app_comm_cons.
Qed.

(** So does every interleaving: what is held or idle afterwards was held
    or idle before, or came in by a stray release. *)
Lemma sys_run_saturated acts : forall s s',
  sys_run acts s = Some s' ->
  max_size (sys_pool s) <= _size (sys_pool s) ->
  (forall j, sys_tasks s !! j <> Some Connecting) ->
  _size (sys_pool s') = _size (sys_pool s)
  /\ forall c, c ∈ held (sys_tasks s') ++ _available (sys_pool s') ->
               c ∈ held (sys_tasks s) ++ _available (sys_pool s)
               \/ Stray c ∈ acts.
Proof.
  induction acts as [|a acts IH]; intros s s' Hrun Hfull Hnc; simpl in Hrun.
  - simplify_eq. split; [done|]. intros c Hc. by left.
  - destruct (sys_step a s) as [s1|] eqn:Hs; [|done].
    assert (Hstep : _size (sys_pool s1) = _size (sys_pool s)
              /\ max_size (sys_pool s1) = max_size (sys_pool s)
              /\ (forall j, sys_tasks s1 !! j <> Some Connecting)
              /\ forall c, c ∈ held (sys_tasks s1) ++ _available (sys_pool s1) ->
                    c ∈ held (sys_tasks s) ++ _available (sys_pool s)
                    \/ a = Stray c).
    { destruct a as [|i r|c]; simpl in Hs.
      - simplify_eq. simpl. repeat split; try done.
        + intros j Hj. apply lookup_app_Some in Hj as [Hj|[_ Hj]].
          * by apply (Hnc j).
          * by apply list_lookup_singleton_Some in Hj as [_ ?].
        + intros c Hc. left. rewrite held_app in Hc. simpl in Hc.
          by rewrite app_nil_r in Hc.
      - destruct (sys_tasks s !! i) as [pc|] eqn:Hi; [|done].
        destruct (task_step r pc (sys_pool s) (sys_next s)) as [[pc' p']|] eqn:Hst;
          [|done].
        simplify_eq. simpl.
        destruct (task_step_saturated _ _ _ _ _ _ _ _ Hi Hst Hfull Hnc)
          as (H1 & H2 & H3 & H4).
        repeat split; try done. intros c Hc. left. by apply H4.
      - simplify_eq. simpl. unfold queue_put. simpl. repeat split; try done.
        intros c0 Hc. rewrite app_assoc in Hc.
        apply elem_of_app in Hc as [Hc|Hc]; [by left|].
        apply list_elem_of_singleton in Hc as ->. by right. }
    destruct Hstep as (H1 & H2 & H3 & H4).
    destruct (IH s1 s' Hrun) as [Hsz Hin]; [lia | done |].
    split; [congruence|].
    intros c Hc. destruct (Hin c Hc) as [Hc1|Hc1].
    + destruct (H4 c Hc1) as [? | ->]; [by left|]. right. apply list_elem_of_here.
    + right. by apply list_elem_of_further.
Qed.

(** X3: a pool that was closed while at capacity creates no connection
    afterwards: [close] empties the idle queue and keeps [_size].  Take
    the pool as [close] leaves it and the callers as they are then, none of
    them inside [conn.connect].  After every interleaving of [acquire] and
    [release] calls that follows, [_size] is what it was before the close,
    and every connection that a caller holds or that is idle is one that a
    caller held when the pool was closed, or one that a stray [release]
    put.  So when no connection was checked out and every [release] is a
    holder's, no [acquire] returns, whatever the interleaving. *)
Theorem acquire_after_close env w tasks nxt acts s :
  max_size (pool w) <= _size (pool w) ->
  (forall j, tasks !! j <> Some Connecting) ->
  sys_run acts (mkSys (pool (snd (ConnectionPool_close env w))) tasks nxt)
    = Some s ->
  _size (sys_pool s) = _size (pool w)
  /\ (forall i c, sys_tasks s !! i = Some (Holding c) ->
        (exists j, tasks !! j = Some (Holding c)) \/ Stray c ∈ acts)
  /\ (forall c, c ∈ _available (sys_pool s) ->
        (exists j, tasks !! j = Some (Holding c)) \/ Stray c ∈ acts)
  /\ ((forall j c, tasks !! j <> Some (Holding c)) ->
      forallb paired acts = true ->
      forall i c, sys_tasks s !! i <> Some (Holding c)).
Proof.
  intros Hfull Hnc Hrun.
  assert (Hclose : _available (pool (snd (ConnectionPool_close env w))) = []
                   /\ _size (pool (snd (ConnectionPool_close env w))) = _size (pool w)
                   /\ max_size (pool (snd (ConnectionPool_close env w)))
                      = max_size (pool w)).
  { unfold ConnectionPool_close. unfold bind at 1 2 3, get_world.
    destruct (close_loop_spec env (length (_available (pool w))) w)
      as (w' & Hw & Hav & Hsz & Hmx & _); [done|].
    rewrite Hw. done. }
  destruct Hclose as (Hav & Hsz & Hmx).
  apply sys_run_saturated in Hrun as [Hsize Hin]; simpl in *; [|lia|done].
  rewrite Hav, app_nil_r in Hin.
  assert (Hfrom : forall c, c ∈ held (sys_tasks s) ++ _available (sys_pool s) ->
            (exists j, tasks !! j = Some (Holding c)) \/ Stray c ∈ acts).
  { intros c Hc. destruct (Hin c Hc) as [Hh|Hs]; [left|by right].
    by apply elem_of_held. }
  split; [congruence|]. split; [|split].
  - intros i c Hi. apply Hfrom. apply elem_of_app. left.
    apply elem_of_held. by exists i.
  - intros c Hc. apply Hfrom. apply elem_of_app. by right.
  - intros Hnone Hp i c Hi.
    destruct (Hfrom c) as [(j & Hj)|Hs].
    + apply elem_of_app. left. apply elem_of_held. by exists i.
    + by apply (Hnone j c).
    + rewrite forallb_forall in Hp. apply list_elem_of_In in Hs.
      specialize (Hp _ Hs). done.
Qed.

(** ** Connections that are not connected, replies that are not results *)

Lemma Connection_execute_not_connected env w c conn query params :
  heap w !! c = Some conn -> _connected conn = false ->
  Connection_execute env c query params w
  = (Raise (ConnectionError "Not connected to server"), w).
Proof.
  intros Hc Hn. unfold Connection_execute. unfold_m. by rewrite Hc, Hn.
Qed.

(** X11: the pool never drops a dead connection.  When the oldest idle
    connection is not connected (closed by a holder, say), [Client.query]
    raises [ConnectionError] without writing anything and puts that
    connection back at the end of the queue; in a pool whose only idle
    connection is dead, the pool is afterwards as it was, so the next query
    fails the same way. *)
Theorem dead_connection_stays_in_pool env w c q conn sql params tmo :
  _available (pool w) = c :: q ->
  heap w !! c = Some conn -> _connected conn = false ->
  exists w',
    Client_query env sql params tmo w
    = (Raise (ConnectionError "Not connected to server"), w')
    /\ _available (pool w') = q ++ [c]
    /\ heap w' = heap w
    /\ _size (pool w') = _size (pool w)
    /\ (forall c', sent_on c' (trace w') = sent_on c' (trace w))
    /\ (q = [] -> pool w' = pool w).
Proof.
  intros Ha Hc Hn. rewrite Client_query_unfold, ConnectionPool_acquire_unfold, Ha.
  rewrite (Connection_execute_not_connected env _ c conn) by done.
  eexists. split; [reflexivity|]. simpl. repeat split.
  all: try (intros c'; trace_simpl; done).
  intros ->. unfold queue_put, set_available. simpl.
  destruct (pool w); simpl in *. by subst.
Qed.

(** X12: what [Connection.execute] makes of a reply that is not tagged as an
    error.  A reply object gives a result with one row per item of
    ["rows"], in order, [columns] and [execution_time_ms] as sent; a
    missing ["rows"] gives an empty result, a missing ["columns"] gives
    [[]], a missing ["execution_time_ms"] gives [None]; ["rows"] that
    cannot be iterated, and a reply that is not an object, raise
    [QueryError].  [params=None] and [params=[]] are the same request. *)
Theorem Connection_execute_reply_shapes env w c conn query params :
  heap w !! c = Some conn -> link_state conn = Connected ->
  (forall fields,
      exchange env (now w) = Reply (JObj fields) ->
      py_eq_str (dict_get fields "type" JNull) "error" = false ->
      fst (Connection_execute env c query params w)
      = match py_iter (dict_get fields "rows" (JArr [])) with
        | Some items =>
            Ret (mkQueryResult (map mkRow items) (Z.of_nat (length items))
                   (dict_get fields "columns" (JArr []))
                   (dict_get fields "execution_time_ms" JNull))
        | None =>
            Raise (QueryError
                     ("Query execution failed: '" +:+
                      py_type_name (dict_get fields "rows" (JArr [])) +:+
                      "' object is not iterable"))
        end)
  /\ (forall fields,
        exchange env (now w) = Reply (JObj fields) ->
        assoc_get "type" fields = None -> assoc_get "rows" fields = None ->
        assoc_get "columns" fields = None ->
        assoc_get "execution_time_ms" fields = None ->
        fst (Connection_execute env c query params w)
        = Ret (mkQueryResult [] 0 (JArr []) JNull))
  /\ (forall v,
        exchange env (now w) = Reply v ->
        (forall fields, v <> JObj fields) ->
        fst (Connection_execute env c query params w)
        = Raise (QueryError ("Query execution failed: '" +:+ py_type_name v +:+
                             "' object has no attribute 'get'")))
  /\ Connection_execute env c query None w
     = Connection_execute env c query (Some []) w.
Proof.
  intros Hc Hst.
  assert (Hshape : forall fields,
      exchange env (now w) = Reply (JObj fields) ->
      py_eq_str (dict_get fields "type" JNull) "error" = false ->
      fst (Connection_execute env c query params w)
      = match py_iter (dict_get fields "rows" (JArr [])) with
        | Some items =>
            Ret (mkQueryResult (map mkRow items) (Z.of_nat (length items))
                   (dict_get fields "columns" (JArr []))
                   (dict_get fields "execution_time_ms" JNull))
        | None =>
            Raise (QueryError
                     ("Query execution failed: '" +:+
                      py_type_name (dict_get fields "rows" (JArr [])) +:+
                      "' object is not iterable"))
        end).
  { intros fields Hrep Hty.
    rewrite (Connection_execute_connected _ _ _ _ _ _ Hc Hst).
    unfold_m. rewrite Hrep. simpl. unfold_m. rewrite Hty.
    destruct (py_iter _); simpl; [|done]. by rewrite length_map. }
  repeat split.
  - exact Hshape.
  - intros fields Hrep Hty Hrows Hcols Hms.
    rewrite (Hshape fields Hrep) by (unfold dict_get; by rewrite Hty).
    unfold dict_get. by rewrite Hrows, Hcols, Hms.
  - intros v Hrep Hv.
    rewrite (Connection_execute_connected _ _ _ _ _ _ Hc Hst).
    unfold_m. rewrite Hrep. simpl.
    destruct v; simpl; try done. by destruct (Hv fields).
Qed.

(** ** A whole transaction scope *)

(** The statements of a body, on a bound and connected connection: they are
    written in order up to the first that does not return, and nothing else
    happens. *)
Lemma run_statements_trace env t c conn stmts : forall w,
  txs w !! t = Some (mkTransaction (Some c)) ->
  heap w !! c = Some conn -> link_state conn = Connected ->
  exists k r w',
    run_statements env t stmts w = (r, w')
    /\ (k <= length stmts)%nat
    /\ sent_on c (trace w') = sent_on c (trace w) ++ (fst <$> take k stmts)
    /\ (r = Ret tt -> k = length stmts)
    /\ (r <> Ret tt -> (1 <= k)%nat)
    /\ heap w' = heap w /\ txs w' = txs w
    /\ acquired (trace w') = acquired (trace w)
    /\ released (trace w') = released (trace w).
Proof.
  induction stmts as [|[sql ps] stmts IH]; intros w Ht Hc Hst.
  - exists 0%nat, (Ret tt), w. simpl. rewrite app_nil_r. repeat split; done.
  - simpl. unfold bind at 1. unfold Transaction_execute. unfold bind at 1.
    rewrite (tx_conn_lookup _ _ _ Ht). simpl.
    pose proof (Connection_execute_connected_world env w c conn sql ps Hc Hst) as Hw.
    destruct (Connection_execute env c sql ps w) as [r1 w1]. simpl in Hw. subst w1.
    destruct r1 as [qr|e|].
    + destruct (IH (log (EvSend c sql (params_or_empty ps)) w))
        as (k & r & w' & Hrun & Hk & Hsent & Hret & Hne & Hh & Htx & Ha & Hr);
        [done..|].
      exists (S k), r, w'. rewrite Hrun. simpl in *.
      rewrite sent_on_snoc in Hsent. simpl in Hsent.
      rewrite Nat.eqb_refl in Hsent. rewrite <- app_assoc in Hsent.
      rewrite acquired_snoc in Ha. rewrite released_snoc in Hr.
      simpl in Ha, Hr. rewrite app_nil_r in Ha, Hr.
      repeat split; try done; try lia.
      intros Hrt. by rewrite Hret.
    + exists 1%nat, (Raise e), (log (EvSend c sql (params_or_empty ps)) w).
      simpl. trace_simpl. rewrite Nat.eqb_refl.
      repeat split; try done; lia.
    + exists 1%nat, Blocked, (log (EvSend c sql (params_or_empty ps)) w).
      simpl. trace_simpl. rewrite Nat.eqb_refl.
      repeat split; try done; lia.
Qed.

(** [__aenter__] on a pool whose oldest idle connection is connected. *)
Lemma Transaction_aenter_head env w t c q conn :
  _available (pool w) = c :: q ->
  heap w !! c = Some conn -> link_state conn = Connected ->
  exists r w',
    Transaction_aenter env t w = (r, w')
    /\ heap w' = heap w
    /\ txs w' = <[t := mkTransaction (Some c)]> (txs w)
    /\ acquired (trace w') = acquired (trace w) ++ [c]
    /\ released (trace w') = released (trace w)
    /\ sent_on c (trace w') = sent_on c (trace w) ++ ["BEGIN TRANSACTION"].
Proof.
  intros Ha Hc Hst. unfold Transaction_aenter. unfold bind at 1.
  rewrite ConnectionPool_acquire_unfold, Ha.
  unfold bind at 1, modify. unfold bind at 1.
  match goal with |- context [Connection_execute env c ?sql ?ps ?w0] =>
    pose proof (Connection_execute_connected_world env w0 c conn sql ps Hc Hst)
      as Hw;
    destruct (Connection_execute env c sql ps w0) as [r1 w1] end.
  simpl in Hw. subst w1.
  destruct r1 as [qr|e|]; eexists _, _; (split; [reflexivity|]); simpl;
    repeat split; trace_simpl; rewrite ?Nat.eqb_refl; simpl;
    rewrite <- ?app_assoc; done.
Qed.

(** X13: a whole transaction scope on a pool whose oldest idle connection is
    connected, the body being a sequence of [tx.execute] calls.  If the
    scope ends at all, it took that one connection and either [BEGIN
    TRANSACTION] failed, and the connection was not released; or every
    statement returned, and [COMMIT] followed them; or a statement raised,
    the statements after it were never written, and [ROLLBACK] followed
    and the scope raised.  In the last two cases the connection was
    released exactly once. *)
Theorem transaction_scope env w c q conn stmts r w' :
  _available (pool w) = c :: q ->
  heap w !! c = Some conn -> link_state conn = Connected ->
  async_with_transaction env (fun t => run_statements env t stmts) w = (r, w') ->
  r <> Blocked ->
  acquired (trace w') = acquired (trace w) ++ [c]
  /\ ((released (trace w') = released (trace w)
       /\ sent_on c (trace w') = sent_on c (trace w) ++ ["BEGIN TRANSACTION"]
       /\ exists e, r = Raise e)
      \/ (released (trace w') = released (trace w) ++ [c]
          /\ sent_on c (trace w')
             = sent_on c (trace w) ++ ["BEGIN TRANSACTION"]
               ++ (fst <$> stmts) ++ ["COMMIT"])
      \/ (released (trace w') = released (trace w) ++ [c]
          /\ (exists e, r = Raise e)
          /\ exists k, (1 <= k <= length stmts)%nat
             /\ sent_on c (trace w')
                = sent_on c (trace w) ++ ["BEGIN TRANSACTION"]
                  ++ (fst <$> take k stmts) ++ ["ROLLBACK"])).
Proof.
  intros Ha Hc Hst Hrun Hr.
  unfold async_with_transaction in Hrun. unfold bind at 1 in Hrun.
  unfold Client_transaction in Hrun. unfold bind at 1 in Hrun.
  set (t := next_tx w) in *.
  set (w0 := mkWorld (heap w) (next_conn w) (pool w)
               (<[t := mkTransaction None]> (txs w)) (S t) (trace w)) in *.
  destruct (Transaction_aenter_head env w0 t c q conn Ha Hc Hst)
    as (r1 & w1 & Henter & Hh1 & Htx1 & Ha1 & Hr1 & Hs1).
  rewrite Henter in Hrun. simpl in Ha1, Hr1, Hs1, Hh1.
  destruct r1 as [[]|e|]; simplify_eq.
  2: { split; [done|]. left. eauto. }
  assert (Ht1 : txs w1 !! t = Some (mkTransaction (Some c)))
    by (rewrite Htx1; apply lookup_insert_eq).
  assert (Hc1 : heap w1 !! c = Some conn) by by rewrite Hh1.
  destruct (run_statements_trace env t c conn stmts w1 Ht1 Hc1 Hst)
    as (k & rb & w2 & Hbody & Hk & Hs2 & Hret & Hne & Hh2 & Htx2 & Ha2 & Hr2).
  rewrite Hbody in Hrun.
  assert (Ht2 : txs w2 !! t = Some (mkTransaction (Some c))) by by rewrite Htx2.
  assert (Hc2 : heap w2 !! c = Some conn) by by rewrite Hh2.
  assert (Hexit : forall exc,
            exists rx,
              Transaction_aexit env t exc w2
              = (rx, match rx with
                     | Blocked => log (EvSend c (exit_statement exc) []) w2
                     | _ => after_release c
                              (log (EvSend c (exit_statement exc) []) w2)
                     end)
              /\ (rx = Ret tt \/ rx = Blocked \/ exists e, rx = Raise e)).
  { intros exc. rewrite (Transaction_aexit_bound env w2 t c exc Ht2).
    pose proof (Connection_execute_connected_world env w2 c conn
                  (exit_statement exc) None Hc2 Hst) as Hw.
    destruct (Connection_execute env c (exit_statement exc) None w2) as [rx wx].
    simpl in Hw. subst wx.
    destruct rx as [qr|e|];
      [exists (Ret tt) | exists (Raise e) | exists Blocked];
      (split; [reflexivity|]); eauto. }
  destruct rb as [[]|e|]; [| |by simplify_eq].
  - (* the body returned *)
    destruct (Hexit None) as (rx & Hx & Hcases). unfold bind at 1 in Hrun.
    rewrite Hx in Hrun. rewrite (Hret eq_refl) in Hs2. rewrite firstn_all in Hs2.
    destruct Hcases as [->|[->|[e ->]]]; simpl in Hrun; unfold ret, raise in Hrun;
      simplify_eq; try (by destruct Hr);
      trace_simpl; rewrite ?Nat.eqb_refl; simpl.
    + split; [congruence|]. right. left. rewrite Hr2, Hr1, Hs2, Hs1.
      rewrite <- !app_assoc. done.
    + split; [congruence|]. right. left. rewrite Hr2, Hr1, Hs2, Hs1.
      rewrite <- !app_assoc. done.
  - (* a statement raised *)
    destruct (Hexit (Some e)) as (rx & Hx & Hcases). unfold bind at 1 in Hrun.
    rewrite Hx in Hrun.
    assert (1 <= k)%nat by (apply Hne; done).
    destruct Hcases as [->|[->|[e' ->]]]; simpl in Hrun; unfold ret, raise in Hrun;
      simplify_eq; try (by destruct Hr);
      trace_simpl; rewrite ?Nat.eqb_refl; simpl.
    + split; [congruence|]. right. right. rewrite Hr2, Hr1, Hs2, Hs1.
      rewrite <- !app_assoc. repeat split; eauto.
    + split; [congruence|]. right. right. rewrite Hr2, Hr1, Hs2, Hs1.
      rewrite <- !app_assoc. repeat split; eauto.
Qed.

(** ** Results and rows *)

(** X14: indexing a [QueryResult].  [result[i]] is a row exactly for
    [-len(rows) <= i < len(rows)], whatever [row_count] says, a negative
    [i] counting from the end, and raises [IndexError] otherwise;
    [first()] never raises: it is [None] exactly when there are no rows,
    and otherwise the row that [result[0]] returns. *)
Theorem QueryResult_indexing (r : QueryResult) (i : Z) :
  (- Z.of_nat (length (rows r)) <= i < Z.of_nat (length (rows r)) ->
     exists row,
       qr_getitem r i = inr row
       /\ rows r !! Z.to_nat (i mod Z.of_nat (length (rows r))) = Some row)
  /\ (~ (- Z.of_nat (length (rows r)) <= i < Z.of_nat (length (rows r))) ->
      qr_getitem r i = inl (PyError "list index out of range"))
  /\ match qr_first r with
     | Some row => qr_getitem r 0 = inr row /\ rows r <> []
     | None =>
         rows r = [] /\ qr_getitem r 0 = inl (PyError "list index out of range")
     end.
Proof.
  unfold qr_getitem, qr_first. repeat split.
  - intros Hi. simpl.
    assert (Hidx : (if i <? 0 then i + Z.of_nat (length (rows r)) else i)
                   = i mod Z.of_nat (length (rows r))).
    { destruct (i <? 0) eqn:Hneg.
      - apply Z.mod_unique with (q := -1); lia.
      - symmetry. apply Z.mod_small. lia. }
    rewrite Hidx.
    pose proof (Z.mod_pos_bound i (Z.of_nat (length (rows r)))) as Hb.
    destruct (lookup_lt_is_Some_2 (rows r)
                (Z.to_nat (i mod Z.of_nat (length (rows r))))) as [row Hrow];
      [lia|].
    exists row. rewrite Hrow.
    replace ((0 <=? i mod Z.of_nat (length (rows r)))
             && (i mod Z.of_nat (length (rows r)) <? Z.of_nat (length (rows r))))
      with true by (symmetry; apply andb_true_intro; split; lia).
    done.
  - intros Hi. simpl.
    destruct (i <? 0) eqn:Hneg;
      match goal with |- context [?a && ?b] =>
        replace (a && b) with false; [done|] end;
      symmetry; apply andb_false_iff; lia.
  - destruct (rows r) as [|row rest] eqn:Hrows; simpl; [done|].
    split; done.
Qed.

(** [to_dict] of each row in turn gives back the values the rows wrap, when
    each has [copy]. *)
Lemma to_dicts_map_mkRow items :
  to_dicts (map mkRow items)
  = if forallb has_copy items then inr items else inl AttributeError.
Proof.
  induction items as [|v items IH]; [done|].
  simpl. unfold Row_to_dict at 1. simpl.
  destruct v; simpl; try done; rewrite IH; by destruct (forallb has_copy items).
Qed.

(** X15: from the reply to [to_dict_list].  For a result that
    [Connection.execute] returned from a reply whose ["rows"] is a list,
    iterating the result visits one row per item, in order, and
    [to_dict_list()] gives back exactly the items of the reply when each is
    an object or a list; when some item is anything else (a number, a
    string, [null]) it raises [AttributeError]. *)
Theorem to_dict_list_round_trip env w c query params qr w' fields items :
  Connection_execute env c query params w = (Ret qr, w') ->
  exchange env (now w) = Reply (JObj fields) ->
  dict_get fields "rows" (JArr []) = JArr items ->
  qr_iter qr = map mkRow items
  /\ qr_all qr = map mkRow items
  /\ qr_len qr = Z.of_nat (length items)
  /\ qr_to_dict_list qr
     = if forallb has_copy items then inr items else inl AttributeError.
Proof.
  intros Hex Hrep Hrows.
  destruct (Connection_execute_Ret _ _ _ _ _ _ _ Hex)
    as (conn & fields' & items' & _ & _ & Hrep' & _ & Hit & -> & _).
  rewrite Hrep in Hrep'. simplify_eq. rewrite Hrows in Hit. simpl in Hit.
  simplify_eq. unfold qr_iter, qr_all, qr_len, qr_to_dict_list. simpl.
  rewrite length_map. repeat split. apply to_dicts_map_mkRow.
Qed.

Lemma existsb_key_assoc_get key fields :
  existsb (fun kv : string * json => String.eqb (fst kv) key) fields
  = match assoc_get key fields with Some _ => true | None => false end.
Proof.
  induction fields as [|[k v] fields IH]; [done|].
  simpl. by destruct (String.eqb k key).
Qed.

(** X16: the three ways to look a column up agree on a row that wraps an
    object.  [key in row] says whether [row[key]] returns; [row[key]]
    raises [KeyError] exactly when the key is missing; [row.get(key,
    default)] never raises, returns what [row[key]] returns when the key is
    there and [default] when it is not. *)
Theorem Row_lookup_agrees (fields : list (string * json)) (key : string)
    (dflt : json) :
  match Row_getitem (mkRow (JObj fields)) key with
  | inr v =>
      Row_contains (mkRow (JObj fields)) key = inr true
      /\ Row_get (mkRow (JObj fields)) key dflt = inr v
  | inl e =>
      e = KeyError key
      /\ Row_contains (mkRow (JObj fields)) key = inr false
      /\ Row_get (mkRow (JObj fields)) key dflt = inr dflt
  end.
Proof.
  unfold Row_getitem, Row_contains, Row_get, dict_get. simpl.
  rewrite existsb_key_assoc_get. by destruct (assoc_get key fields).
Qed.

Lemma assoc_get_NoDup key v fields :
  NoDup (map fst fields) -> (key, v) ∈ fields -> assoc_get key fields = Some v.
Proof.
  induction fields as [|[k v'] fields IH]; intros Hnd Hin.
  - by apply elem_of_nil in Hin.
  - simpl in Hnd. apply NoDup_cons in Hnd as [Hnin Hnd]. simpl.
    apply elem_of_cons in Hin as [Heq|Hin].
    + simplify_eq. by rewrite String.eqb_refl.
    + destruct (String.eqb_spec k key) as [->|Hne]; [|by apply IH].
      exfalso. apply Hnin. apply list_elem_of_fmap. by exists (key, v).
Qed.

(** X17: enumerating a row.  On a row that wraps an object, [keys()],
    [values()] and [items()] have one entry per field, in the order of the
    object, [items()] pairs the k-th key with the k-th value, and each pair
    [(k, v)] of [items()] is what [row[k]] returns.  On a row that wraps
    anything else (the client wraps whatever the server put in ["rows"])
    they raise [AttributeError], as [get] does, and [row[key]] raises
    [TypeError]. *)
Theorem Row_enumeration (r : Row) :
  match _data r with
  | JObj fields =>
      Row_keys r = inr (map fst fields)
      /\ Row_values r = inr (map snd fields)
      /\ Row_items r = inr (zip (map fst fields) (map snd fields))
      /\ (NoDup (map fst fields) ->
          forall k v, (k, v) ∈ fields -> Row_getitem r k = inr v)
  | _ =>
      Row_keys r = inl AttributeError /\ Row_values r = inl AttributeError
      /\ Row_items r = inl AttributeError
      /\ (forall k d, Row_get r k d = inl AttributeError)
      /\ (forall k, Row_getitem r k = inl TypeError)
  end.
Proof.
  unfold Row_keys, Row_values, Row_items, Row_get, Row_getitem.
  destruct (_data r) as [| | | | | |fields]; try done.
  repeat split.
  - f_equal. induction fields as [|[k v] fields IH]; [done|]. simpl. by f_equal.
  - intros Hnd k v Hin. by rewrite (assoc_get_NoDup k v fields Hnd Hin).
Qed.

(** ** QueryBuilder *)

Lemma count_char_append a s1 s2 :
  count_char a (s1 +:+ s2) = (count_char a s1 + count_char a s2)%nat.
Proof. induction s1 as [|x s1 IH]; simpl; [done|]. rewrite IH. lia. Qed.

(** A decimal numeral has no question mark. *)
Lemma py_str_int_no_placeholder (z : Z) : count_char "?" (py_str_int z) = 0%nat.
Proof.
  assert (Hu : forall d, count_char "?" (NilEmpty.string_of_uint d) = 0%nat)
    by (induction d; simpl; done).
  assert (Hz : forall d, count_char "?" (NilZero.string_of_uint d) = 0%nat)
    by (intros d; destruct d; simpl; try done; apply Hu).
  unfold py_str_int, NilZero.string_of_int.
  destruct (Z.to_int z); simpl; by rewrite Hz.
Qed.

Lemma count_char_join a sep n (l : list string) :
  count_char a sep = 0%nat ->
  Forall (fun s => count_char a s = n) l ->
  count_char a (join sep l) = (n * length l)%nat.
Proof.
  intros Hsep Hl. induction Hl as [|x l Hx Hl IH]; simpl; [lia|].
  destruct l as [|y l]; [simpl; lia|].
  rewrite !count_char_append, Hsep, Hx, IH. simpl. lia.
Qed.

(** What keeps the placeholders and the bound values in step: no
    interpolated text has a question mark, and [_params] holds the values
    of the where clauses. *)
Lemma build_placeholders (b : QueryBuilder) :
  count_char "?" (table b) = 0%nat ->
  Forall (fun s => count_char "?" s = 0%nat) (_select_columns b) ->
  Forall (fun c => count_char "?" (fst (fst c)) = 0%nat
                   /\ count_char "?" (snd (fst c)) = 0%nat) (_where_clauses b) ->
  Forall (fun c => count_char "?" (fst c) = 0%nat
                   /\ count_char "?" (snd c) = 0%nat) (_order_by_clauses b) ->
  count_char "?" (QueryBuilder_build b) = length (_where_clauses b).
Proof.
  intros Ht Hs Hw Ho. unfold QueryBuilder_build.
  assert (Hcols : count_char "?"
                    match _select_columns b with
                    | [] => "*"
                    | _ => join ", " (_select_columns b)
                    end = 0%nat).
  { destruct (_select_columns b) eqn:E; [done|]. rewrite <- E in *.
    rewrite (count_char_join _ _ 0) by done. lia. }
  assert (Hwhere : count_char "?"
            (join " AND " (map (fun c => fst (fst c) +:+ " " +:+ snd (fst c) +:+ " ?")
                               (_where_clauses b))) = length (_where_clauses b)).
  { rewrite (count_char_join _ _ 1); [rewrite length_map; lia|done|].
    apply Forall_fmap. eapply Forall_impl; [exact Hw|].
    intros [[col op] v] [Hc Hop]. simpl in *.
    rewrite !count_char_append, Hc, Hop. done. }
  assert (Horder : count_char "?"
            (join ", " (map (fun c => fst c +:+ " " +:+ snd c)
                            (_order_by_clauses b))) = 0%nat).
  { rewrite (count_char_join _ _ 0); [lia|done|].
    apply Forall_fmap. eapply Forall_impl; [exact Ho|].
    intros [col dir] [Hc Hd]. simpl in *.
    rewrite !count_char_append, Hc, Hd. done. }
  destruct (_offset_value b), (_limit_value b), (_order_by_clauses b) eqn:Eo,
    (_where_clauses b) eqn:Ew;
    rewrite ?count_char_append, ?py_str_int_no_placeholder, ?Hcols, ?Ht,
      ?Hwhere, ?Horder; simpl; lia.
Qed.

(** What a chain of calls keeps true of the builder. *)
Lemma chain_invariant calls : forall b,
  count_char "?" (table b) = 0%nat ->
  Forall (fun s => count_char "?" s = 0%nat) (_select_columns b) ->
  Forall (fun c => count_char "?" (fst (fst c)) = 0%nat
                   /\ count_char "?" (snd (fst c)) = 0%nat) (_where_clauses b) ->
  Forall (fun c => count_char "?" (fst c) = 0%nat
                   /\ count_char "?" (snd c) = 0%nat) (_order_by_clauses b) ->
  length (_params b) = length (_where_clauses b) ->
  Forall (fun s => count_char "?" s = 0%nat) (flat_map call_texts calls) ->
  count_char "?" (QueryBuilder_build
                    (fold_left (fun b c => builder_call c b) calls b))
  = length (_params (fold_left (fun b c => builder_call c b) calls b)).
Proof.
  induction calls as [|c calls IH]; intros b Ht Hs Hw Ho Hp Hc; simpl.
  - rewrite Hp. by apply build_placeholders.
  - simpl in Hc. apply Forall_app in Hc as [Hc Hrest].
    apply IH; try done; destruct c; simpl in *; try done.
    + by apply Forall_app.
    + apply Forall_app. split; [done|].
      apply Forall_cons in Hc as [H1 Hc]. apply Forall_cons in Hc as [H2 _].
      by repeat constructor.
    + apply Forall_app. split; [done|].
      apply Forall_cons in Hc as [H1 Hc]. apply Forall_cons in Hc as [H2 _].
      by repeat constructor.
    + rewrite !length_app. simpl. lia.
Qed.

Lemma chain_params calls : forall b,
  _params (fold_left (fun b c => builder_call c b) calls b)
  = _params b ++ flat_map call_values calls.
Proof.
  induction calls as [|c calls IH]; intros b; simpl; [by rewrite app_nil_r|].
  rewrite IH. destruct c; simpl; try done. by rewrite <- app_assoc.
Qed.

(** X18: placeholders and parameters of a fluent chain.  For every chain of
    calls on [QueryBuilder(table)], [params()] is the values of the
    [where] calls in the order of the calls; and when no table, column,
    operator or direction contains a question mark, [build()] contains
    exactly one question mark per parameter. *)
Theorem builder_placeholders_match_params tbl calls :
  QueryBuilder_params (chain tbl calls) = flat_map call_values calls
  /\ (Forall (fun s => count_char "?" s = 0%nat) (tbl :: flat_map call_texts calls) ->
      count_char "?" (QueryBuilder_build (chain tbl calls))
      = length (QueryBuilder_params (chain tbl calls))).
Proof.
  unfold QueryBuilder_params, chain. split.
  - by rewrite chain_params.
  - intros Hq. apply Forall_cons in Hq as [Ht Hc].
    apply chain_invariant; simpl; try done; constructor.
Qed.

(** The text that [build] makes depends on the where clauses through their
    columns and operators only. *)
Lemma build_same_text (b b' : QueryBuilder) :
  table b = table b' -> _select_columns b = _select_columns b' ->
  map fst (_where_clauses b) = map fst (_where_clauses b') ->
  _order_by_clauses b = _order_by_clauses b' ->
  _limit_value b = _limit_value b' -> _offset_value b = _offset_value b' ->
  QueryBuilder_build b = QueryBuilder_build b'.
Proof.
  intros Ht Hs Hw Ho Hl Hf. unfold QueryBuilder_build.
  rewrite Ht, Hs, Ho, Hl, Hf.
  assert (Hparts :
    map (fun c : string * string * json =>
           fst (fst c) +:+ " " +:+ snd (fst c) +:+ " ?") (_where_clauses b)
    = map (fun c : string * string * json =>
             fst (fst c) +:+ " " +:+ snd (fst c) +:+ " ?") (_where_clauses b')).
  { rewrite <- (map_map fst (fun p : string * string => fst p +:+ " " +:+ snd p +:+ " ?")
                  (_where_clauses b)).
    rewrite <- (map_map fst (fun p : string * string => fst p +:+ " " +:+ snd p +:+ " ?")
                  (_where_clauses b')).
    by rewrite Hw. }
  rewrite Hparts.
  destruct (_where_clauses b) as [|x l], (_where_clauses b') as [|x' l'];
    simpl in Hw; try done.
Qed.

(** X19: the values given to [where] never reach the SQL text.  The text that
    [build()] makes of a chain of calls is the text it makes of the same
    chain with every value replaced by [None]: a value goes to [params()]
    and nowhere else. *)
Theorem builder_values_not_in_sql tbl calls :
  QueryBuilder_build (chain tbl calls)
  = QueryBuilder_build (chain tbl (map erase_value calls)).
Proof.
  unfold chain.
  assert (Hgen : forall b b',
    table b = table b' -> _select_columns b = _select_columns b' ->
    map fst (_where_clauses b) = map fst (_where_clauses b') ->
    _order_by_clauses b = _order_by_clauses b' ->
    _limit_value b = _limit_value b' -> _offset_value b = _offset_value b' ->
    QueryBuilder_build (fold_left (fun b c => builder_call c b) calls b)
    = QueryBuilder_build
        (fold_left (fun b c => builder_call c b) (map erase_value calls) b')).
  { induction calls as [|c calls IH]; intros b b' Ht Hs Hw Ho Hl Hf; simpl.
    - by apply build_same_text.
    - apply IH; destruct c; simpl; try done; try congruence.
      rewrite !map_app, Hw. done. }
  by apply Hgen.
Qed.

(** ** Client.connect *)

Lemma rsplit_colon_None s :
  rsplit_colon s = None <-> count_char ":" s = 0%nat.
Proof.
  induction s as [|a s IH]; simpl; [done|].
  destruct (rsplit_colon s) as [[h p]|].
  - split; [done|]. intros H.
    destruct (Ascii.eqb a ":"); [done|].
    destruct IH as [_ IH]. by specialize (IH H).
  - destruct IH as [IH _]. rewrite (IH eq_refl).
    destruct (Ascii.eqb a ":"); split; done || lia.
Qed.

(** [rsplit(":", 1)] cuts at the last colon. *)
Lemma rsplit_colon_cut s : forall h p,
  rsplit_colon s = Some (h, p) ->
  s = h +:+ ":" +:+ p /\ count_char ":" p = 0%nat.
Proof.
  induction s as [|a s IH]; intros h p; simpl; [done|].
  destruct (rsplit_colon s) as [[h' p']|] eqn:Hr.
  - intros; simplify_eq. destruct (IH _ _ eq_refl) as [-> Hp]. done.
  - destruct (Ascii.eqb_spec a ":") as [->|Hne]; [|done].
    intros; simplify_eq. split; [done|]. by apply rsplit_colon_None.
Qed.

Lemma rsplit_colon_String a s :
  rsplit_colon (String a s)
  = match rsplit_colon s with
    | Some (h, p) => Some (String a h, p)
    | None => if Ascii.eqb a ":" then Some (EmptyString, s) else None
    end.
Proof. done. Qed.

Lemma rsplit_colon_join h : forall p,
  count_char ":" p = 0%nat -> rsplit_colon (h +:+ ":" +:+ p) = Some (h, p).
Proof.
  induction h as [|b h IH]; intros p Hp.
  - change ("" +:+ ":" +:+ p) with (String ":" p).
    rewrite rsplit_colon_String. apply rsplit_colon_None in Hp. by rewrite Hp.
  - change (String b h +:+ ":" +:+ p) with (String b (h +:+ ":" +:+ p)).
    rewrite rsplit_colon_String. by rewrite (IH p Hp).
Qed.

(** X20: how [Client.connect] reads its address.  The address is cut at its
    last colon, so the host is everything before it (colons included) and
    the port text has no colon; host, colon and port text give the address
    back.  An address with no colon, or a port text that [int] rejects,
    makes [connect] raise before any connection object is made: the world
    is untouched.  Otherwise [connect] is [initialize] on a new pool with
    that host and port. *)
Theorem Client_connect_address env py_int address mn mx tmo w :
  match rsplit_colon address with
  | None =>
      count_char ":" address = 0%nat
      /\ Client_connect env py_int address mn mx tmo w
         = (Raise (PyError "not enough values to unpack (expected 2, got 1)"), w)
  | Some (h, port_str) =>
      address = h +:+ ":" +:+ port_str
      /\ count_char ":" port_str = 0%nat
      /\ match py_int port_str with
         | inl e =>
             Client_connect env py_int address mn mx tmo w = (Raise (PyError e), w)
         | inr p =>
             Client_connect env py_int address mn mx tmo w
             = ConnectionPool_initialize env
                 (set_pool (ConnectionPool_init h p mn mx tmo) w)
         end
  end.
Proof.
  unfold Client_connect.
  destruct (rsplit_colon address) as [[h port_str]|] eqn:Hr.
  - apply rsplit_colon_cut in Hr as [Ha Hp]. repeat split; try done.
    destruct (py_int port_str); done.
  - apply rsplit_colon_None in Hr. done.
Qed.

(** X21: a successful [Client.connect].  When the address is [host:port] and
    every connect succeeds, [connect] returns with a pool for that host and
    port that holds [max(min_connections, 0)] idle connections, each
    Connected to that host and port, and counts as many. *)
Theorem Client_connect_ok env py_int h port_str p mn mx tmo w :
  count_char ":" port_str = 0%nat ->
  py_int port_str = inr p ->
  (forall j, (j < Z.to_nat mn)%nat -> connect_outcome env (now w + 1 + j) = ConnectOk) ->
  exists w',
    Client_connect env py_int (h +:+ ":" +:+ port_str) mn mx tmo w = (Ret tt, w')
    /\ pool_host (pool w') = h /\ pool_port (pool w') = p
    /\ max_size (pool w') = mx
    /\ _available (pool w') = seq (next_conn w) (Z.to_nat mn)
    /\ _size (pool w') = Z.max 0 mn
    /\ forall c, c ∈ _available (pool w') ->
         heap w' !! c = Some (mkConnection h p true true).
Proof.
  intros Hp Hint Hok. unfold Client_connect.
  assert (Hr : rsplit_colon (h +:+ ":" +:+ port_str) = Some (h, port_str))
    by (by apply rsplit_colon_join).
  rewrite Hr, Hint. unfold bind at 1, modify.
  unfold ConnectionPool_initialize. unfold bind at 1, get_world. simpl.
  destruct (initialize_loop_ok env (Z.to_nat mn)
              (set_pool (ConnectionPool_init h p mn mx tmo) w))
    as (w' & Hrun & Hav & Hsz & _ & _ & Hh & Hpp & _ & _ & _ & Hnew).
  { exact Hok. }
  exists w'. simpl in *. rewrite Hrun.
  assert (Hinit := initialize_loop_Ret _ _ _ _ Hrun).
  destruct Hinit as (_ & _ & Hmx & _). simpl in Hmx.
  repeat split; try done; try lia.
  intros c Hc. rewrite Hav in Hc. by apply Hnew.
Qed.

(** ** Concrete runs of the pool, results, rows, builder and connect *)

Example documented_chain_builds :
  QueryBuilder_build (chain "users" documented_chain)
  = "SELECT id, name, email FROM users WHERE age > ? AND active = ? ORDER BY name ASC LIMIT 10"
  /\ QueryBuilder_params (chain "users" documented_chain) = [JInt 18; JBool true]
  /\ QueryBuilder_build (QueryBuilder_init "t") = "SELECT * FROM t"
  /\ QueryBuilder_build (QueryBuilder_limit 0 (QueryBuilder_init "t"))
     = "SELECT * FROM t LIMIT 0".
Proof. vm_compute. done. Qed.

Example rsplit_last_colon :
  rsplit_colon "::1:5432" = Some ("::1", "5432")
  /\ rsplit_colon "localhost" = None
  /\ rsplit_colon "localhost:" = Some ("localhost", "").
Proof. vm_compute. done. Qed.

(** The idle connection of [w_one] is closed by [ConnectionPool.close]. *)
Lemma ConnectionPool_close_closes_idle_witness :
  (forall t, wait_closed env_rows t = None)
  /\ 0%nat ∈ _available (pool w_one)
  /\ heap w_one !! 0%nat = Some (mkConnection "localhost" 5432 true true)
  /\ exists conn',
       heap (snd (ConnectionPool_close env_rows w_one)) !! 0%nat = Some conn'
       /\ link_state conn' <> Connected.
Proof.
  split; [intros t; reflexivity|].
  split; [apply (proj2 (list_elem_of_singleton 0%nat 0%nat) eq_refl)|].
  split; [reflexivity|].
  destruct (ConnectionPool_close_closes_idle env_rows w_one 0
              (mkConnection "localhost" 5432 true true)
              (fun t => eq_refl)
              (proj2 (list_elem_of_singleton 0%nat 0%nat) eq_refl) eq_refl)
    as (conn' & H1 & H2 & _).
  exists conn'. split; assumption.
Defined.

(** The second connection of a pool of one to two is made on demand. *)
Lemma acquire_on_empty_queue_witness :
  _available (pool w_one_two_taken) = []
  /\ _lock (pool w_one_two_taken) = false
  /\ _size (pool w_one_two_taken) < max_size (pool w_one_two_taken)
  /\ exists r w',
       ConnectionPool_acquire env_rows w_one_two_taken = (r, w')
       /\ _lock (pool w') = false /\ _available (pool w') = [].
Proof.
  split; [reflexivity|]. split; [reflexivity|]. split; [reflexivity|].
  destruct (acquire_on_empty_queue env_rows w_one_two_taken
              eq_refl eq_refl eq_refl)
    as (r & w' & H1 & H2 & H3 & _).
  exists r, w'. repeat split; assumption.
Defined.

(** [initialize] of a pool of two to three makes connections 0 and 1. *)
Lemma initialize_connects_min_size_witness :
  (forall j, (j < Z.to_nat (min_size (pool w_new)))%nat ->
             connect_outcome env_rows (now w_new + 1 + j) = ConnectOk)
  /\ exists w',
       ConnectionPool_initialize env_rows w_new = (Ret tt, w')
       /\ _available (pool w') = [0%nat; 1%nat].
Proof.
  split; [intros j _; reflexivity|].
  destruct (initialize_connects_min_size env_rows w_new (fun j _ => eq_refl))
    as (w' & H1 & H2 & _).
  exists w'. split; [exact H1 | exact H2].
Defined.

(** The second connect of [initialize] is refused: connection 0 stays. *)
Lemma initialize_partial_failure_witness :
  (1 < Z.to_nat (min_size (pool w_new)))%nat
  /\ (forall j, (j < 1)%nat ->
        connect_outcome env_second_refused (now w_new + 1 + j) = ConnectOk)
  /\ connect_outcome env_second_refused (now w_new + 1 + 1) <> ConnectOk
  /\ exists e w',
       ConnectionPool_initialize env_second_refused w_new = (Raise e, w')
       /\ _size (pool w') = 1 /\ _available (pool w') = [0%nat].
Proof.
  assert (H1 : (1 < Z.to_nat (min_size (pool w_new)))%nat)
    by (vm_compute; lia).
  assert (H2 : forall j, (j < 1)%nat ->
             connect_outcome env_second_refused (now w_new + 1 + j) = ConnectOk).
  { intros j Hj. destruct j as [|j]; [reflexivity|lia]. }
  assert (H3 : connect_outcome env_second_refused (now w_new + 1 + 1) <> ConnectOk)
    by (vm_compute; discriminate).
  split; [exact H1|]. split; [exact H2|]. split; [exact H3|].
  destruct (initialize_partial_failure env_second_refused w_new 1 H1 H2 H3)
    as (e & w' & Hrun & _ & Hsz & Hav & _).
  exists e, w'. repeat split; assumption.
Defined.

(** After the race for [w_one_two] the two callers hold different
    connections. *)
Lemma no_double_checkout_witness :
  started env_rows 1 2 = (Ret tt, w_one_two)
  /\ forallb paired race = true
  /\ (sys_tasks <$> sys_run race (Sys_init w_one_two))
     = Some [Holding 0; Holding 5]
  /\ forall s, sys_run race (Sys_init w_one_two) = Some s ->
       NoDup (_available (sys_pool s)).
Proof.
  split; [reflexivity|]. split; [reflexivity|]. split; [reflexivity|].
  intros s Hs.
  exact (proj2 (proj2 (no_double_checkout env_rows "localhost" 5432 "10.0" 1 2
                         w_one_two race s eq_refl eq_refl Hs))).
Defined.

(** During the race for [w_one_two] one caller is in the lock. *)
Lemma lock_is_exclusive_witness :
  0 <= 1 <= 2
  /\ started env_rows 1 2 = (Ret tt, w_one_two)
  /\ (_lock <$> (sys_pool <$> sys_run (take 6 race) (Sys_init w_one_two)))
     = Some true
  /\ forall s, sys_run (take 6 race) (Sys_init w_one_two) = Some s ->
       (_lock (sys_pool s) = true <->
        exists i pc, sys_tasks s !! i = Some pc /\ in_lock pc = 1%nat).
Proof.
  split; [lia|]. split; [reflexivity|]. split; [reflexivity|].
  intros s Hs.
  refine (proj2 (lock_is_exclusive env_rows "localhost" 5432 "10.0" 1 2
                   w_one_two (take 6 race) s _ eq_refl Hs)).
  lia.
Defined.

(** A caller of the full pool [w_one] gets its idle connection. *)
Lemma saturated_pool_creates_nothing_witness :
  0 <= 1 <= 1
  /\ started env_rows 1 1 = (Ret tt, w_one)
  /\ sys_run [Spawn] (Sys_init w_one)
     = Some (mkSys (pool w_one) [Polling] (next_conn w_one))
  /\ _size (pool w_one) = max_size (pool w_one)
  /\ sys_step (Run 0 Proceed) (mkSys (pool w_one) [Polling] (next_conn w_one))
     = Some (mkSys (set_available [] (pool w_one)) [Holding 0]
                   (S (next_conn w_one)))
  /\ _available (pool w_one) = [0%nat].
Proof.
  split; [lia|]. split; [reflexivity|]. split; [reflexivity|].
  split; [reflexivity|]. split; [reflexivity|].
  refine (proj1 (saturated_pool_creates_nothing env_rows "localhost" 5432 "10.0"
                   1 1 w_one [Spawn]
                   (mkSys (pool w_one) [Polling] (next_conn w_one))
                   0 Proceed
                   (mkSys (set_available [] (pool w_one)) [Holding 0]
                          (S (next_conn w_one)))
                   Polling 0 _ eq_refl eq_refl eq_refl eq_refl eq_refl eq_refl
                   eq_refl)).
  lia.
Defined.

(** The full pool [w_one_taken] is closed while connection 0 is checked
    out: the caller that comes next is handed connection 0 once its holder
    releases it, and nothing is created. *)
Lemma acquire_after_close_witness :
  max_size (pool w_one_taken) <= _size (pool w_one_taken)
  /\ (forall j, [Holding 0] !! j <> Some Connecting)
  /\ (sys_tasks <$> sys_run late_release
        (mkSys (pool (snd (ConnectionPool_close env_rows w_one_taken)))
               [Holding 0] 1))
     = Some [Finished; Holding 0]
  /\ forall s,
       sys_run late_release
         (mkSys (pool (snd (ConnectionPool_close env_rows w_one_taken)))
                [Holding 0] 1) = Some s ->
       _size (sys_pool s) = _size (pool w_one_taken).
Proof.
  assert (H1 : max_size (pool w_one_taken) <= _size (pool w_one_taken))
    by (vm_compute; discriminate).
  assert (H2 : forall j, [Holding 0] !! j <> Some Connecting)
    by (intros [|[|j]]; discriminate).
  split; [exact H1|]. split; [exact H2|]. split; [reflexivity|].
  intros s Hs.
  exact (proj1 (acquire_after_close env_rows w_one_taken [Holding 0] 1%nat
                  late_release s H1 H2 Hs)).
Defined.

(** A query on the pool whose only connection is dead. *)
Lemma dead_connection_stays_in_pool_witness :
  _available (pool w_one_dead) = [0%nat]
  /\ heap w_one_dead !! 0%nat = Some (mkConnection "localhost" 5432 true false)
  /\ exists w',
       Client_query env_rows "SELECT 1" None None w_one_dead
       = (Raise (ConnectionError "Not connected to server"), w')
       /\ _available (pool w') = [0%nat].
Proof.
  split; [reflexivity|]. split; [reflexivity|].
  destruct (dead_connection_stays_in_pool env_rows w_one_dead 0 []
              (mkConnection "localhost" 5432 true false) "SELECT 1" None None
              eq_refl eq_refl eq_refl)
    as (w' & H1 & H2 & _).
  exists w'. split; [exact H1 | exact H2].
Defined.

(** A reply of two rows. *)
Lemma Connection_execute_reply_shapes_witness :
  heap w_one !! 0%nat = Some (mkConnection "localhost" 5432 true true)
  /\ link_state (mkConnection "localhost" 5432 true true) = Connected
  /\ fst (Connection_execute env_rows 0 "SELECT 1" None w_one)
     = Ret two_rows_result.
Proof.
  split; [reflexivity|]. split; [reflexivity|].
  destruct (Connection_execute_reply_shapes env_rows w_one 0
              (mkConnection "localhost" 5432 true true) "SELECT 1" None
              eq_refl eq_refl) as [Hshape _].
  exact (Hshape [("type", JStr "result");
                 ("rows", JArr [JObj [("id", JInt 1)]; JObj [("id", JInt 2)]]);
                 ("columns", JArr [JStr "id"])] eq_refl eq_refl).
Defined.

(** A scope of one insert on [w_one] commits and releases. *)
Lemma transaction_scope_witness :
  _available (pool w_one) = [0%nat]
  /\ heap w_one !! 0%nat = Some (mkConnection "localhost" 5432 true true)
  /\ link_state (mkConnection "localhost" 5432 true true) = Connected
  /\ fst (async_with_transaction env_rows
            (fun t => run_statements env_rows t one_insert) w_one) = Ret tt
  /\ acquired (trace (snd (async_with_transaction env_rows
                             (fun t => run_statements env_rows t one_insert)
                             w_one)))
     = acquired (trace w_one) ++ [0%nat].
Proof.
  split; [reflexivity|]. split; [reflexivity|]. split; [reflexivity|].
  split; [reflexivity|].
  refine (proj1 (transaction_scope env_rows w_one 0 []
                   (mkConnection "localhost" 5432 true true) one_insert
                   (Ret tt)
                   (snd (async_with_transaction env_rows
                           (fun t => run_statements env_rows t one_insert) w_one))
                   eq_refl eq_refl eq_refl eq_refl _)).
  discriminate.
Defined.

(** Indexing a result whose [row_count] is wrong. *)
Lemma QueryResult_indexing_witness :
  - Z.of_nat (length (rows miscounted)) <= -1 < Z.of_nat (length (rows miscounted))
  /\ ~ (- Z.of_nat (length (rows miscounted)) <= 2
        < Z.of_nat (length (rows miscounted)))
  /\ qr_len miscounted = 5
  /\ (exists row, qr_getitem miscounted (-1) = inr row)
  /\ qr_getitem miscounted 2 = inl (PyError "list index out of range").
Proof.
  assert (H1 : - Z.of_nat (length (rows miscounted)) <= -1
               < Z.of_nat (length (rows miscounted))) by (vm_compute; split; congruence).
  assert (H2 : ~ (- Z.of_nat (length (rows miscounted)) <= 2
                  < Z.of_nat (length (rows miscounted))))
    by (vm_compute; intros [_ H]; discriminate H).
  split; [exact H1|]. split; [exact H2|]. split; [reflexivity|].
  split.
  - destruct (proj1 (QueryResult_indexing miscounted (-1)) H1) as (row & Hrow & _).
    exists row. exact Hrow.
  - exact (proj1 (proj2 (QueryResult_indexing miscounted 2)) H2).
Defined.

(** The rows of [two_rows] come back from [to_dict_list]. *)
Lemma to_dict_list_round_trip_witness :
  Connection_execute env_rows 0 "SELECT 1" None w_one
  = (Ret two_rows_result, log (EvSend 0 "SELECT 1" []) w_one)
  /\ qr_to_dict_list two_rows_result
     = inr [JObj [("id", JInt 1)]; JObj [("id", JInt 2)]].
Proof.
  split; [reflexivity|].
  exact (proj2 (proj2 (proj2
    (to_dict_list_round_trip env_rows w_one 0 "SELECT 1" None two_rows_result
       (log (EvSend 0 "SELECT 1" []) w_one)
       [("type", JStr "result");
        ("rows", JArr [JObj [("id", JInt 1)]; JObj [("id", JInt 2)]]);
        ("columns", JArr [JStr "id"])]
       [JObj [("id", JInt 1)]; JObj [("id", JInt 2)]]
       eq_refl eq_refl eq_refl)))).
Defined.

(** A row of two columns. *)
Lemma Row_enumeration_witness :
  NoDup (map fst [("id", JInt 1); ("name", JStr "Alice")])
  /\ Row_getitem (mkRow (JObj [("id", JInt 1); ("name", JStr "Alice")])) "name"
     = inr (JStr "Alice").
Proof.
  assert (Hnd : NoDup (map fst [("id", JInt 1); ("name", JStr "Alice")])).
  { apply NoDup_cons. split.
    - intros Hin. apply list_elem_of_singleton in Hin. discriminate Hin.
    - apply NoDup_singleton. }
  split; [exact Hnd|].
  refine (proj2 (proj2 (proj2
    (Row_enumeration (mkRow (JObj [("id", JInt 1); ("name", JStr "Alice")])))))
    Hnd "name" (JStr "Alice") _).
  apply list_elem_of_further. apply list_elem_of_here.
Defined.

(** The documented chain has two placeholders and two parameters. *)
Lemma builder_placeholders_match_params_witness :
  Forall (fun s => count_char "?" s = 0%nat)
         ("users" :: flat_map call_texts documented_chain)
  /\ count_char "?" (QueryBuilder_build (chain "users" documented_chain))
     = length (QueryBuilder_params (chain "users" documented_chain)).
Proof.
  assert (Hq : Forall (fun s => count_char "?" s = 0%nat)
                      ("users" :: flat_map call_texts documented_chain))
    by (repeat constructor).
  split; [exact Hq|].
  exact (proj2 (builder_placeholders_match_params "users" documented_chain) Hq).
Defined.

(** [Client.connect("localhost:5432")] with two connections. *)
Lemma Client_connect_ok_witness :
  count_char ":" "5432" = 0%nat
  /\ int_5432 "5432" = inr 5432
  /\ (forall j, (j < Z.to_nat 2)%nat ->
        connect_outcome env_rows (now w_new + 1 + j) = ConnectOk)
  /\ exists w',
       Client_connect env_rows int_5432 "localhost:5432" 2 10 "10.0" w_new
       = (Ret tt, w')
       /\ _available (pool w') = [0%nat; 1%nat].
Proof.
  split; [reflexivity|]. split; [reflexivity|]. split; [intros j _; reflexivity|].
  destruct (Client_connect_ok env_rows int_5432 "localhost" "5432" 5432 2 10
              "10.0" w_new eq_refl eq_refl (fun j _ => eq_refl))
    as (w' & H1 & _ & _ & _ & H2 & _).
  exists w'. split; [exact H1 | exact H2].
Defined.
